(** * Griffin Notebook front-end shims: a shallow embedding

    The development follows the three TypeScript sources of the
    repository:

    - [application-extension/src/index.ts]: the [opener], [menus] and
      [theme] plugins;
    - the application shell [GriffinNotebookShell];
    - the application class [GriffinNotebookApp].

    JavaScript strings are sequences of UTF-16 code units, modelled as
    [list N].  The language and platform operations the plugins call
    ([String.prototype.match], [decodeURIComponent], [URLSearchParams])
    are modelled after ECMA-262 and the WHATWG URL and Encoding
    standards; the JupyterLab collaborators (document manager, menu bar,
    theme manager, page configuration, base shell) are modelled as plain
    state with the operations the sources call. *)

From Stdlib Require Import NArith Ascii String.
From stdpp Require Import base option list gmap strings.

Local Open Scope N_scope.
Local Open Scope nat_scope.

(** ** JavaScript values used by the sources *)

Module JS.

(** A JavaScript string: its UTF-16 code units. *)
Abbreviation jsstring := (list N).

(** The code unit of an ASCII character. *)
Definition ch (a : ascii) : N := N_of_ascii a.

(** A string literal of the source (ASCII only). *)
Definition js (s : string) : jsstring := ch <$> list_ascii_of_string s.

(** The errors a built-in of this development can throw. *)
Inductive Error : Type :=
| URIError.

(** The completion of a call: it returns normally or throws. *)
Inductive completion (A : Type) : Type :=
| Normal (a : A)
| Throw (e : Error).
Arguments Normal {A} a.
Arguments Throw {A} e.

Definition bind {A B} (x : completion A) (f : A → completion B) : completion B :=
  match x with
  | Normal a => f a
  | Throw e => Throw e
  end.

(** ToBoolean on a possibly undefined string, as used by [!path]:
    [undefined] and the empty string are falsy. *)
Definition truthy (v : option jsstring) : bool :=
  match v with
  | None => false
  | Some [] => false
  | Some (_ :: _) => true
  end.

End JS.
Import JS.

Notation "x ←! e1 ; e2" := (JS.bind e1 (λ x, e2))
  (at level 20, e1 at level 100, e2 at level 200, only parsing).

(** ** Regular expressions (ECMA-262, 22.2), without flags *)

Module RegExp.

(** The fragment of the pattern syntax that the source uses. *)
Inductive regex : Type :=
| Empty
| Char (c : N)
| Dot
| Seq (r1 r2 : regex)
| Star (r : regex)
| Group (i : nat) (r : regex).

(** A run of literal characters. *)
Fixpoint Lit (l : jsstring) : regex :=
  match l with
  | [] => Empty
  | c :: l' => Seq (Char c) (Lit l')
  end.

(** LineTerminator: LF, CR, LS, PS.  Without the [s] flag, [.] does
    not match them. *)
Definition IsLineTerminator (c : N) : bool :=
  bool_decide (c = 10%N) || bool_decide (c = 13%N)
  || bool_decide (c = 8232%N) || bool_decide (c = 8233%N).

(** A match state: the input still to read and the captures so far. *)
Definition MatchState : Type := jsstring * gmap nat jsstring.
Definition Continuation : Type := jsstring → gmap nat jsstring → option MatchState.

(** The indices of the capturing groups of a pattern, in the order of
    their left parentheses. *)
Fixpoint groups (r : regex) : list nat :=
  match r with
  | Empty | Char _ | Dot => []
  | Seq r1 r2 => groups r1 ++ groups r2
  | Star r => groups r
  | Group i r => i :: groups r
  end.

(** Greedy repetition (RepeatMatcher with min 0, max infinity): clear
    the captures of the groups inside the repeated pattern, try one
    more iteration, which must consume input, and fall back to the
    continuation with the captures as they were.  The fuel is the
    length of the input, which bounds the number of consuming
    iterations. *)
Fixpoint RepeatMatcher
    (body : jsstring → gmap nat jsstring → Continuation → option MatchState)
    (inner : list nat)
    (k : Continuation) (fuel : nat) (s : jsstring) (c : gmap nat jsstring)
    : option MatchState :=
  match fuel with
  | O => k s c
  | S fuel' =>
      match body s (foldr delete c inner) (λ s' c',
               if decide (length s' < length s)
               then RepeatMatcher body inner k fuel' s' c'
               else None) with
      | Some res => Some res
      | None => k s c
      end
  end.

(** The backtracking matcher in continuation-passing style. *)
Fixpoint m (r : regex) {struct r}
    : jsstring → gmap nat jsstring → Continuation → option MatchState :=
  match r with
  | Empty => λ s c k, k s c
  | Char x => λ s c k,
      match s with
      | y :: s' => if decide (y = x) then k s' c else None
      | [] => None
      end
  | Dot => λ s c k,
      match s with
      | y :: s' => if IsLineTerminator y then None else k s' c
      | [] => None
      end
  | Seq r1 r2 => λ s c k, m r1 s c (λ s' c', m r2 s' c' k)
  | Star r => λ s c k, RepeatMatcher (m r) (groups r) k (length s) s c
  | Group i r => λ s c k,
      m r s c (λ s' c', k s' (<[i := take (length s - length s') s]> c'))
  end.

(** The number of capturing groups of a pattern. *)
Fixpoint NcapturingParens (r : regex) : nat :=
  match r with
  | Empty | Char _ | Dot => 0
  | Seq r1 r2 => NcapturingParens r1 + NcapturingParens r2
  | Star r => NcapturingParens r
  | Group _ r => S (NcapturingParens r)
  end.

(** One attempt of RegExpBuiltinExec, at the start of [s]: the result
    array holds the matched substring and then each capture, a group
    that did not take part being [undefined]. *)
Definition match_here (R : regex) (s : jsstring) : option (list (option jsstring)) :=
  '(s', c) ← m R s ∅ (λ s' c', Some (s', c'));
  Some (Some (take (length s - length s') s)
          :: ((λ i, c !! i) <$> seq 1 (NcapturingParens R))).

(** RegExpBuiltinExec for a pattern that is neither global nor
    sticky: [lastIndex] starts at 0 and advances by one after each
    failed attempt, up to and including the end of the input. *)
Fixpoint RegExpBuiltinExec (R : regex) (s : jsstring) : option (list (option jsstring)) :=
  match match_here R s with
  | Some a => Some a
  | None =>
      match s with
      | [] => None
      | _ :: s' => RegExpBuiltinExec R s'
      end
  end.

(** [String.prototype.match] with a non-global pattern: the result
    array, or [null]. *)
Definition String_match (s : jsstring) (R : regex) : option (list (option jsstring)) :=
  RegExpBuiltinExec R s.


End RegExp.

(** ** URI handling functions (ECMA-262, 19.2.6) *)

Module URI.

Local Open Scope N_scope.

(** The value of a hexadecimal digit, if the code unit is one. *)
Definition hex_digit (c : N) : option N :=
  if (48 <=? c) && (c <=? 57) then Some (c - 48)
  else if (65 <=? c) && (c <=? 70) then Some (c - 55)
  else if (97 <=? c) && (c <=? 102) then Some (c - 87)
  else None.

(** ParseHexOctet on the two code units that follow a [%]. *)
Definition ParseHexOctet (h1 h2 : N) : option N :=
  a ← hex_digit h1; b ← hex_digit h2; Some (16 * a + b).

(** The number of leading 1 bits of an octet. *)
Definition leading_ones (B : N) : nat :=
  if B <? 128 then 0%nat
  else if B <? 192 then 1%nat
  else if B <? 224 then 2%nat
  else if B <? 240 then 3%nat
  else if B <? 248 then 4%nat
  else 5%nat.

Definition in_range (lo hi b : N) : bool := (lo <=? b) && (b <=? hi).

(** The code point of a multi-octet UTF-8 sequence, when the octets
    are a valid encoding of a Unicode scalar value (no overlong form,
    no surrogate, nothing above U+10FFFF). *)
Definition utf8_code_point (octets : list N) : option N :=
  match octets with
  | [b1; b2] =>
      if in_range 194 223 b1 && in_range 128 191 b2
      then Some (N.lor (N.shiftl (N.land b1 31) 6) (N.land b2 63))
      else None
  | [b1; b2; b3] =>
      if in_range 224 239 b1
         && in_range (if b1 =? 224 then 160 else 128)
                     (if b1 =? 237 then 159 else 191) b2
         && in_range 128 191 b3
      then Some (N.lor (N.shiftl (N.land b1 15) 12)
                   (N.lor (N.shiftl (N.land b2 63) 6) (N.land b3 63)))
      else None
  | [b1; b2; b3; b4] =>
      if in_range 240 244 b1
         && in_range (if b1 =? 240 then 144 else 128)
                     (if b1 =? 244 then 143 else 191) b2
         && in_range 128 191 b3 && in_range 128 191 b4
      then Some (N.lor (N.shiftl (N.land b1 7) 18)
                   (N.lor (N.shiftl (N.land b2 63) 12)
                      (N.lor (N.shiftl (N.land b3 63) 6) (N.land b4 63))))
      else None
  | _ => None
  end.

(** UTF16EncodeCodePoint. *)
Definition UTF16EncodeCodePoint (cp : N) : jsstring :=
  if cp <=? 65535 then [cp]
  else [(cp - 65536) / 1024 + 55296; (cp - 65536) mod 1024 + 56320].

(** Decode with an empty set of preserved escapes.  The index [k] of
    the standard is the suffix still to read; the inner loop that
    collects the [n - 1] continuation escapes of a multi-octet
    sequence is the [pending] argument: how many escapes are still
    expected and the octets read so far.  Every failure is the same
    URIError. *)
Fixpoint Decode (s : jsstring) (pending : option (nat * list N))
    : completion jsstring :=
  match s with
  | [] =>
      match pending with
      | None => Normal []
      | Some _ => Throw URIError
      end
  | C :: t =>
      if C =? ch "%" then
        match t with
        | h1 :: h2 :: t' =>
            match ParseHexOctet h1 h2 with
            | None => Throw URIError
            | Some B =>
                match pending with
                | None =>
                    match leading_ones B with
                    | O => R ←! Decode t' None; Normal (B :: R)
                    | 2%nat => Decode t' (Some (1%nat, [B]))
                    | 3%nat => Decode t' (Some (2%nat, [B]))
                    | 4%nat => Decode t' (Some (3%nat, [B]))
                    | _ => Throw URIError
                    end
                | Some (1%nat, octets) =>
                    match utf8_code_point (octets ++ [B]) with
                    | Some V =>
                        R ←! Decode t' None;
                        Normal (UTF16EncodeCodePoint V ++ R)
                    | None => Throw URIError
                    end
                | Some (j, octets) =>
                    Decode t' (Some (Nat.pred j, octets ++ [B]))
                end
            end
        | _ => Throw URIError
        end
      else
        match pending with
        | None => R ←! Decode t None; Normal (C :: R)
        | Some _ => Throw URIError
        end
  end.

(** [decodeURIComponent(encodedURIComponent)]. *)
Definition decodeURIComponent (s : jsstring) : completion jsstring :=
  Decode s None.

End URI.

(** ** URLSearchParams (WHATWG URL, 5.1 and 6.2; WHATWG Encoding, 4.1 and 9.1) *)

Module URLSearchParams.

Local Open Scope N_scope.

Definition is_high_surrogate (c : N) : bool := (55296 <=? c) && (c <=? 56319).
Definition is_low_surrogate (c : N) : bool := (56320 <=? c) && (c <=? 57343).

(** Conversion of a JavaScript string to a USVString (Web IDL): a
    surrogate pair becomes its scalar value, an unpaired surrogate
    becomes U+FFFD. *)
Fixpoint ToUSVString (s : jsstring) : list N :=
  match s with
  | [] => []
  | c :: t =>
      if is_high_surrogate c then
        match t with
        | d :: t' =>
            if is_low_surrogate d
            then (65536 + (c - 55296) * 1024 + (d - 56320)) :: ToUSVString t'
            else 65533 :: ToUSVString t
        | [] => [65533]
        end
      else if is_low_surrogate c then 65533 :: ToUSVString t
      else c :: ToUSVString t
  end.

(** UTF-8 encode of one scalar value. *)
Definition utf8_encode_scalar (cp : N) : list N :=
  if cp <=? 127 then [cp]
  else if cp <=? 2047 then
    [192 + N.shiftr cp 6; 128 + N.land cp 63]
  else if cp <=? 65535 then
    [224 + N.shiftr cp 12; 128 + N.land (N.shiftr cp 6) 63; 128 + N.land cp 63]
  else
    [240 + N.shiftr cp 18; 128 + N.land (N.shiftr cp 12) 63;
     128 + N.land (N.shiftr cp 6) 63; 128 + N.land cp 63].

Definition utf8_encode (cps : list N) : list N := cps ≫= utf8_encode_scalar.

(** Strictly split a byte sequence on a separator byte. *)
Fixpoint split_on (sep : N) (l : list N) : list (list N) :=
  match l with
  | [] => [[]]
  | b :: t =>
      if b =? sep then [] :: split_on sep t
      else
        match split_on sep t with
        | cur :: rest => (b :: cur) :: rest
        | [] => [[b]]
        end
  end.

(** The bytes before the first occurrence of [sep], and those after
    it when there is one. *)
Fixpoint break_on (sep : N) (l : list N) : list N * option (list N) :=
  match l with
  | [] => ([], None)
  | b :: t =>
      if b =? sep then ([], Some t)
      else let '(name, value) := break_on sep t in (b :: name, value)
  end.

(** Percent-decode of a byte sequence: a [%] that two hexadecimal
    digits do not follow is kept as it is. *)
Fixpoint percent_decode (l : list N) : list N :=
  match l with
  | [] => []
  | b :: t =>
      if b =? ch "%" then
        match t with
        | h1 :: h2 :: t' =>
            match URI.ParseHexOctet h1 h2 with
            | Some v => v :: percent_decode t'
            | None => b :: percent_decode t
            end
        | _ => b :: percent_decode t
        end
      else b :: percent_decode t
  end.

(** The state of the UTF-8 decoder. *)
Record utf8_decoder : Type := {
  code_point : N;
  bytes_seen : nat;
  bytes_needed : nat;
  lower_boundary : N;
  upper_boundary : N
}.

Definition utf8_decoder_init : utf8_decoder :=
  {| code_point := 0; bytes_seen := 0; bytes_needed := 0;
     lower_boundary := 128; upper_boundary := 191 |}.

(** The decoder's handler on a byte when no byte is needed: the code
    points emitted and the next state. *)
Definition utf8_lead (b : N) : list N * utf8_decoder :=
  if b <=? 127 then ([b], utf8_decoder_init)
  else if URI.in_range 194 223 b then
    ([], {| code_point := N.land b 31; bytes_seen := 0; bytes_needed := 1;
            lower_boundary := 128; upper_boundary := 191 |})
  else if URI.in_range 224 239 b then
    ([], {| code_point := N.land b 15; bytes_seen := 0; bytes_needed := 2;
            lower_boundary := if b =? 224 then 160 else 128;
            upper_boundary := if b =? 237 then 159 else 191 |})
  else if URI.in_range 240 244 b then
    ([], {| code_point := N.land b 7; bytes_seen := 0; bytes_needed := 3;
            lower_boundary := if b =? 240 then 144 else 128;
            upper_boundary := if b =? 244 then 143 else 191 |})
  else ([65533], utf8_decoder_init).

(** The decoder's handler, in replacement error mode: a byte outside
    the expected range emits U+FFFD and is then read again as a lead
    byte. *)
Definition utf8_handler (st : utf8_decoder) (b : N) : list N * utf8_decoder :=
  match bytes_needed st with
  | O => utf8_lead b
  | S _ =>
      if negb (URI.in_range (lower_boundary st) (upper_boundary st) b) then
        let '(out, st') := utf8_lead b in (65533 :: out, st')
      else
        let cp := N.lor (N.shiftl (code_point st) 6) (N.land b 63) in
        if decide (S (bytes_seen st) = bytes_needed st)
        then ([cp], utf8_decoder_init)
        else ([], {| code_point := cp; bytes_seen := S (bytes_seen st);
                     bytes_needed := bytes_needed st;
                     lower_boundary := 128; upper_boundary := 191 |})
  end.

Fixpoint utf8_decode_from (st : utf8_decoder) (l : list N) : list N :=
  match l with
  | [] =>
      match bytes_needed st with
      | O => []
      | S _ => [65533]
      end
  | b :: t =>
      let '(out, st') := utf8_handler st b in out ++ utf8_decode_from st' t
  end.

(** UTF-8 decode without BOM. *)
Definition utf8_decode_without_BOM (l : list N) : list N :=
  utf8_decode_from utf8_decoder_init l.

(** The scalar values of a USVString as a JavaScript string. *)
Definition of_USVString (cps : list N) : jsstring :=
  cps ≫= URI.UTF16EncodeCodePoint.

Definition plus_to_space (l : list N) : list N :=
  (λ b, if b =? ch "+" then 32 else b) <$> l.

(** One name-value tuple from a non-empty sequence between two [&]. *)
Definition parse_tuple (bytes : list N) : jsstring * jsstring :=
  let '(name, value) := break_on (ch "=") bytes in
  let decode l :=
    of_USVString (utf8_decode_without_BOM (percent_decode (plus_to_space l))) in
  (decode name, decode (default [] value)).

(** The application/x-www-form-urlencoded parser. *)
Definition urlencoded_parse (input : list N) : list (jsstring * jsstring) :=
  parse_tuple <$> filter (λ sq, sq ≠ []) (split_on (ch "&") input).

(** [new URLSearchParams(init)] with a string: a leading [?] is
    dropped and the rest is parsed.  The object is its list. *)
Definition new (init : jsstring) : list (jsstring * jsstring) :=
  let usv := ToUSVString init in
  let usv :=
    match usv with
    | c :: t => if c =? ch "?" then t else usv
    | [] => usv
    end in
  urlencoded_parse (utf8_encode usv).

(** [get(name)]: the value of the first tuple whose name is [name],
    and [null] when there is none. *)
Definition get (params : list (jsstring * jsstring)) (name : jsstring)
    : option jsstring :=
  '(_, p) ← list_find (λ p, p.1 = name) params; Some p.2.

End URLSearchParams.

(** ** The JupyterLab collaborators

    Only the operations the sources call are modelled; each is the
    contract the sources rely on. *)

Module Host.

(** [IRouter.ILocation]: the path and the optional search string of
    the routed URL. *)
Record ILocation : Type := {
  path : jsstring;
  search : option jsstring
}.

(** One call [docManager.open(path, widgetName, kernel, options)];
    [kernel] is [undefined] when [None], [ref] is [options.ref]. *)
Record OpenCall : Type := {
  open_path : jsstring;
  open_widgetName : jsstring;
  open_kernel : option jsstring;
  open_ref : jsstring
}.

(** The front end as the [opener] plugin sees it: the [app.started]
    promise with the reactions registered on it, the queue of
    promise jobs, and the calls received by the document manager.  A
    reaction or job is the call its callback makes. *)
Record FrontEnd : Type := {
  started_settled : bool;
  started_reactions : list OpenCall;
  jobs : list OpenCall;
  docManager_opened : list OpenCall
}.

(** [app.started.then(cb)]: a reaction on a pending promise, a job
    on a fulfilled one.  The callback never runs synchronously. *)
Definition started_then (cb : OpenCall) (fe : FrontEnd) : FrontEnd :=
  if started_settled fe
  then {| started_settled := true;
          started_reactions := started_reactions fe;
          jobs := jobs fe ++ [cb];
          docManager_opened := docManager_opened fe |}
  else {| started_settled := false;
          started_reactions := started_reactions fe ++ [cb];
          jobs := jobs fe;
          docManager_opened := docManager_opened fe |}.

(** The host fulfils [app.started]: its reactions become jobs. *)
Definition resolve_started (fe : FrontEnd) : FrontEnd :=
  if started_settled fe then fe
  else {| started_settled := true;
          started_reactions := [];
          jobs := jobs fe ++ started_reactions fe;
          docManager_opened := docManager_opened fe |}.

(** The host runs the queued promise jobs. *)
Definition run_jobs (fe : FrontEnd) : FrontEnd :=
  {| started_settled := started_settled fe;
     started_reactions := started_reactions fe;
     jobs := [];
     docManager_opened := docManager_opened fe ++ jobs fe |}.

(** A menu of the menu bar; [dispose()] marks it disposed. *)
Record Menu : Type := { isDisposed : bool }.

Definition dispose (_ : Menu) : Menu := {| isDisposed := true |}.

(** [IMainMenu]: the named menus of the menu bar. *)
Record IMainMenu : Type := {
  editMenu : Menu;
  fileMenu : Menu;
  helpMenu : Menu;
  kernelMenu : Menu;
  runMenu : Menu;
  settingsMenu : Menu;
  tabsMenu : Menu;
  viewMenu : Menu
}.

(** [IThemeManager]: the current theme and the [setTheme] calls
    received, oldest first. *)
Record IThemeManager : Type := {
  theme : option jsstring;
  setTheme_calls : list jsstring
}.

Definition setTheme (name : jsstring) (tm : IThemeManager) : IThemeManager :=
  {| theme := Some name; setTheme_calls := setTheme_calls tm ++ [name] |}.

(** [PageConfig.getOption(name)]: the configured string, and the
    empty string for an option that is not set. *)
Definition getOption (config : gmap jsstring jsstring) (name : jsstring) : jsstring :=
  default [] (config !! name).

(** The base shell [NotebookShell], reduced to the two widgets that
    its top-panel hooks show and hide. *)
Record NotebookShell : Type := {
  topWrapper_hidden : bool;
  spacer_top_hidden : bool
}.

Module NotebookShell.
(** The base constructor shows the top area. *)
Definition new : NotebookShell :=
  {| topWrapper_hidden := false; spacer_top_hidden := false |}.

Definition collapseTop (_ : NotebookShell) : NotebookShell :=
  {| topWrapper_hidden := true; spacer_top_hidden := true |}.

Definition expandTop (_ : NotebookShell) : NotebookShell :=
  {| topWrapper_hidden := false; spacer_top_hidden := false |}.
End NotebookShell.

(** The class of a shell object decides which [expandTop] a call
    dispatches to. *)
Inductive ShellClass : Type :=
| NotebookShellClass
| GriffinNotebookShellClass.

Record ShellObject : Type := {
  class : ShellClass;
  fields : NotebookShell
}.

(** A value of an options object: [undefined], [null], or a
    reference to an object.  Shell objects live in the heap, a
    reference to one is its index. *)
Inductive value : Type :=
| Undefined
| Null
| Ref (a : nat).

(** The nullish test of [??]. *)
Definition nullish (v : value) : bool :=
  match v with
  | Undefined | Null => true
  | Ref _ => false
  end.

(** Reading a property of an object: [undefined] when it has none. *)
Definition get_property (o : gmap jsstring value) (name : jsstring) : value :=
  default Undefined (o !! name).

End Host.
Import Host.

(** ** The application shell: [GriffinNotebookShell] *)

Module GriffinNotebookShell.

(** [constructor() { super(); this.collapseTop(); }]; [collapseTop]
    is inherited from the base shell. *)
Definition new : ShellObject :=
  {| class := GriffinNotebookShellClass;
     fields := NotebookShell.collapseTop NotebookShell.new |}.

(** [expandTop(): void {}]: overridden to do nothing. *)
Definition expandTop (this : ShellObject) : ShellObject := this.

End GriffinNotebookShell.

(** A call [shell.expandTop()] dispatches on the class of the object. *)
Definition call_expandTop (this : ShellObject) : ShellObject :=
  match class this with
  | GriffinNotebookShellClass => GriffinNotebookShell.expandTop this
  | NotebookShellClass =>
      {| class := NotebookShellClass;
         fields := NotebookShell.expandTop (fields this) |}
  end.

(** [new GriffinNotebookShell()] in a heap of shell objects: the new
    object is stored at a fresh index, which is returned. *)
Definition alloc_GriffinNotebookShell (heap : list ShellObject) : nat * list ShellObject :=
  (length heap, heap ++ [GriffinNotebookShell.new]).

(** ** The application class: [GriffinNotebookApp] *)

Module GriffinNotebookApp.

(** [constructor(options = { shell: new GriffinNotebookShell() }) {
       super({ ...options, shell: options.shell ?? new GriffinNotebookShell() });
     }]
    The argument is [None] when the caller passes none (or
    [undefined]).  The result is the options object handed to the
    base constructor, with the heap after the allocations. *)
Definition new (options : option (gmap jsstring value)) (heap : list ShellObject)
    : gmap jsstring value * list ShellObject :=
  let '(options, heap) :=
    match options with
    | Some o => (o, heap)
    | None =>
        let '(a, heap') := alloc_GriffinNotebookShell heap in
        ({[ js "shell" := Ref a ]}, heap')
    end in
  let '(shell, heap) :=
    let v := get_property options (js "shell") in
    if nullish v then
      let '(a, heap') := alloc_GriffinNotebookShell heap in (Ref a, heap')
    else (v, heap) in
  (<[ js "shell" := shell ]> options, heap).

End GriffinNotebookApp.

(** ** The plugins of [application-extension/src/index.ts] *)

Module Extension.
Import RegExp.

(** The pattern given to [new RegExp]: a slash, the first group
    [griffin-notebooks], a slash, and the second group, which is a
    greedy repetition of [.]. *)
Definition TREE_PATTERN : regex :=
  Seq (Char (ch "/"))
    (Seq (Group 1 (Lit (js "griffin-notebooks")))
       (Seq (Char (ch "/"))
          (Group 2 (Star Dot)))).

Module opener.

(** [const urlParams = new URLSearchParams(parsed.search);
     const factory = urlParams.get('factory') ?? 'default';]
    A missing [search] gives an empty parameter list. *)
Definition factory (search : option jsstring) : jsstring :=
  let urlParams :=
    match search with
    | Some init => URLSearchParams.new init
    | None => []
    end in
  default (js "default") (URLSearchParams.get urlParams (js "factory")).

(** The [execute] function of the command ['router:tree'].
    [const [, , path] = parsed.path.match(TREE_PATTERN) ?? [];]
    reads index 2 of the result array, [undefined] when the array
    is shorter.  The callback given to [app.started.then] is the
    [docManager.open] call it makes. *)
Definition execute (parsed : ILocation) (fe : FrontEnd) : completion unit * FrontEnd :=
  let matches := default [] (String_match (Host.path parsed) TREE_PATTERN) in
  let path := mjoin (matches !! 2%nat) in
  if negb (truthy path) then (Normal (), fe)
  else
    match URI.decodeURIComponent (default [] path) with
    | Throw e => (Throw e, fe)
    | Normal file =>
        (Normal (),
         started_then {| open_path := file;
                         open_widgetName := factory (search parsed);
                         open_kernel := None;
                         open_ref := js "_noref" |} fe)
    end.

End opener.

Module menus.

(** [menu.fileMenu.dispose(); menu.tabsMenu.dispose();] *)
Definition activate (menu : IMainMenu) : IMainMenu :=
  let menu :=
    {| editMenu := editMenu menu;
       fileMenu := dispose (fileMenu menu);
       helpMenu := helpMenu menu;
       kernelMenu := kernelMenu menu;
       runMenu := runMenu menu;
       settingsMenu := settingsMenu menu;
       tabsMenu := tabsMenu menu;
       viewMenu := viewMenu menu |} in
  {| editMenu := editMenu menu;
     fileMenu := fileMenu menu;
     helpMenu := helpMenu menu;
     kernelMenu := kernelMenu menu;
     runMenu := runMenu menu;
     settingsMenu := settingsMenu menu;
     tabsMenu := dispose (tabsMenu menu);
     viewMenu := viewMenu menu |}.

End menus.

Module theme.

(** [const darkTheme = PageConfig.getOption('darkTheme');
     if (darkTheme == 'true') { themeManager.setTheme('JupyterLab Dark'); }
     else { themeManager.setTheme('JupyterLab Light'); }]
    On two strings [==] is equality of the code units. *)
Definition activate (config : gmap jsstring jsstring) (themeManager : IThemeManager)
    : IThemeManager :=
  let darkTheme := getOption config (js "darkTheme") in
  if decide (darkTheme = js "true")
  then setTheme (js "JupyterLab Dark") themeManager
  else setTheme (js "JupyterLab Light") themeManager.

End theme.

End Extension.
Import Extension.

(** ** The operations of the repository on one system state *)

Record System : Type := {
  shells : list ShellObject;
  frontEnd : FrontEnd;
  mainMenu : IMainMenu;
  themeManager : IThemeManager
}.

Inductive operation : Type :=
| RouterTree (args : ILocation)
| MenusActivate
| ThemeActivate (config : gmap jsstring jsstring)
| NewShell
| ExpandTop (a : nat)
| NewApp (options : option (gmap jsstring value)).

Definition perform (σ : System) (op : operation) : System :=
  match op with
  | RouterTree args =>
      {| shells := shells σ;
         frontEnd := (opener.execute args (frontEnd σ)).2;
         mainMenu := mainMenu σ;
         themeManager := themeManager σ |}
  | MenusActivate =>
      {| shells := shells σ;
         frontEnd := frontEnd σ;
         mainMenu := menus.activate (mainMenu σ);
         themeManager := themeManager σ |}
  | ThemeActivate config =>
      {| shells := shells σ;
         frontEnd := frontEnd σ;
         mainMenu := mainMenu σ;
         themeManager := theme.activate config (themeManager σ) |}
  | NewShell =>
      {| shells := (alloc_GriffinNotebookShell (shells σ)).2;
         frontEnd := frontEnd σ;
         mainMenu := mainMenu σ;
         themeManager := themeManager σ |}
  | ExpandTop a =>
      {| shells := alter call_expandTop a (shells σ);
         frontEnd := frontEnd σ;
         mainMenu := mainMenu σ;
         themeManager := themeManager σ |}
  | NewApp options =>
      {| shells := (GriffinNotebookApp.new options (shells σ)).2;
         frontEnd := frontEnd σ;
         mainMenu := mainMenu σ;
         themeManager := themeManager σ |}
  end.

(** The top area of a shell object is hidden. *)
Definition top_hidden (o : ShellObject) : Prop :=
  topWrapper_hidden (fields o) = true ∧ spacer_top_hidden (fields o) = true.

(** Every [GriffinNotebookShell] of the system has its top area hidden. *)
Definition top_panel_hidden (σ : System) : Prop :=
  Forall (λ o, class o = GriffinNotebookShellClass → top_hidden o) (shells σ).

(** ** Vocabulary of the statements *)

(** [s.includes(l)]: [l] occurs in [s] as a substring. *)
Fixpoint includes (l s : jsstring) : bool :=
  bool_decide (l `prefix_of` s) ||
  match s with
  | [] => false
  | _ :: s' => includes l s'
  end.

(** The longest prefix without a line terminator, and what follows it. *)
Fixpoint line_prefix (s : jsstring) : jsstring :=
  match s with
  | [] => []
  | c :: s' => if RegExp.IsLineTerminator c then [] else c :: line_prefix s'
  end.

Fixpoint line_rest (s : jsstring) : jsstring :=
  match s with
  | [] => []
  | c :: s' => if RegExp.IsLineTerminator c then s else line_rest s'
  end.

(** A code unit that the form-urlencoded parser reads as it is: an
    ASCII character other than [&], [+] and [%]. *)
Definition plain (c : N) : bool :=
  (c <? 128)%N && negb (c =? ch "&")%N && negb (c =? ch "+")%N
  && negb (c =? ch "%")%N.

(** A code unit of a parameter value that needs no percent-decoding:
    an ASCII character other than [&] and [%]. *)
Definition unescaped (c : N) : bool :=
  (c <? 128)%N && negb (c =? ch "&")%N && negb (c =? ch "%")%N.

(** A Unicode scalar value: a code point that is not a surrogate. *)
Definition is_scalar (cp : N) : bool :=
  (cp <? 55296)%N || ((57344 <=? cp)%N && (cp <? 1114112)%N).

(** A well-formed JavaScript string: 16-bit code units in which every
    surrogate is half of a pair. *)
Fixpoint well_formed (s : jsstring) : bool :=
  match s with
  | [] => true
  | c :: t =>
      if URLSearchParams.is_high_surrogate c then
        match t with
        | d :: t' => URLSearchParams.is_low_surrogate d && well_formed t'
        | [] => false
        end
      else
        negb (URLSearchParams.is_low_surrogate c) && (c <? 65536)%N && well_formed t
  end.

(** The UTF-8 decoder run over some bytes: what it emits and the
    state it ends in. *)
Fixpoint feed (st : URLSearchParams.utf8_decoder) (l : list N)
    : list N * URLSearchParams.utf8_decoder :=
  match l with
  | [] => ([], st)
  | b :: t =>
      let '(out, st') := URLSearchParams.utf8_handler st b in
      let '(out', st'') := feed st' t in
      (out ++ out', st'')
  end.

(** The escapes [%h1h2] of a list of pairs of hexadecimal digits. *)
Definition escapes (hs : list (N * N)) : jsstring :=
  hs ≫= λ h, [ch "%"; h.1; h.2].

(** A parameter that is written as it is read: its name has only
    ASCII characters other than [&], [+], [%] and [=], its value only
    ASCII characters other than [&] and [%]. *)
Definition plain_parameter (p : jsstring * jsstring) : bool :=
  forallb plain p.1 && forallb (λ c, negb (c =? ch "=")%N) p.1
  && forallb unescaped p.2.

(** The query string [k1=v1&k2=v2&...] of a list of parameters. *)
Fixpoint query_string (ps : list (jsstring * jsstring)) : jsstring :=
  match ps with
  | [] => []
  | p :: ps' =>
      match ps' with
      | [] => p.1 ++ ch "=" :: p.2
      | _ :: _ => p.1 ++ ch "=" :: p.2 ++ ch "&" :: query_string ps'
      end
  end.

(** The tree segment between its two slashes. *)
Definition tree_segment : jsstring := js "/griffin-notebooks/".

(** A front end on which nothing has happened yet. *)
Definition fresh_frontEnd : FrontEnd :=
  {| started_settled := false; started_reactions := [];
     jobs := []; docManager_opened := [] |}.

(** The [docManager.open] call that the command schedules. *)
Definition open_call (file : jsstring) (search : option jsstring) : OpenCall :=
  {| open_path := file;
     open_widgetName := opener.factory search;
     open_kernel := None;
     open_ref := js "_noref" |}.

(** The calls that wait for [app.started] or for the job queue, in
    the order in which they will reach the document manager. *)
Definition pending (fe : FrontEnd) : list OpenCall :=
  jobs fe ++ started_reactions fe.

(** What can happen to the front end: the command runs on a location,
    the host runs the promise jobs, the host fulfils [app.started]. *)
Inductive frontEnd_event : Type :=
| Execute (loc : ILocation)
| RunJobs
| ResolveStarted.

Definition frontEnd_step (fe : FrontEnd) (e : frontEnd_event) : FrontEnd :=
  match e with
  | Execute loc => (opener.execute loc fe).2
  | RunJobs => run_jobs fe
  | ResolveStarted => resolve_started fe
  end.

(** A fulfilled promise holds no reaction. *)
Definition promise_consistent (fe : FrontEnd) : Prop :=
  started_settled fe = true → started_reactions fe = [].

(** * Properties *)

(** ** The matcher on the tree pattern *)

Section RegExpFacts.
Import RegExp.

Lemma line_prefix_rest s : line_prefix s ++ line_rest s = s.
Proof.
  induction s as [|c s IH]; simpl; [done|].
  destruct (IsLineTerminator c); simpl; [done|by rewrite IH].
Qed.

Lemma line_prefix_id s :
  forallb (λ c, negb (IsLineTerminator c)) s = true → line_prefix s = s.
Proof.
  induction s as [|c s IH]; simpl; [done|].
  destruct (IsLineTerminator c); simpl; [done|]. intros H. by rewrite IH.
Qed.

Lemma length_line_rest s : length (line_rest s) ≤ length s.
Proof.
  induction s as [|c s IH]; simpl; [lia|].
  destruct (IsLineTerminator c); simpl; lia.
Qed.

Lemma take_line_prefix s : take (length s - length (line_rest s)) s = line_prefix s.
Proof.
  rewrite <- (line_prefix_rest s) at 1 3.
  rewrite length_app.
  replace (length (line_prefix s) + length (line_rest s) - length (line_rest s))
    with (length (line_prefix s)) by lia.
  by rewrite take_app_length.
Qed.

Lemma m_Lit l s c k : m (Lit l) (l ++ s) c k = k s c.
Proof.
  revert c k. induction l as [|x l IH]; intros c k; simpl; [done|].
  rewrite decide_True by done. apply IH.
Qed.

Lemma m_Lit_Some l s c k r :
  m (Lit l) s c k = Some r → ∃ s', s = l ++ s' ∧ k s' c = Some r.
Proof.
  revert s c k. induction l as [|x l IH]; intros s c k; simpl.
  - intros H. by exists s.
  - destruct s as [|y s]; [done|]. case_decide; [subst y|done].
    intros H. apply IH in H as (s' & -> & H). by exists s'.
Qed.

(** The greedy [.*] in front of a continuation that accepts
    whatever is left. *)
Lemma RepeatMatcher_Dot k fuel s c :
  (∀ s' c', is_Some (k s' c')) → length s ≤ fuel →
  RepeatMatcher (m Dot) [] k fuel s c = k (line_rest s) c.
Proof.
  intros Hk. revert fuel. induction s as [|y s IH]; intros fuel Hfuel.
  - destruct fuel; simpl; done.
  - destruct fuel as [|fuel]; simpl in *; [lia|].
    destruct (IsLineTerminator y); [done|].
    rewrite decide_True by lia.
    rewrite IH by lia.
    by destruct (Hk (line_rest s) c) as [r ->].
Qed.

Lemma m_Group_Star_Dot i k s c :
  (∀ s' c', is_Some (k s' c')) →
  m (Group i (Star Dot)) s c k = k (line_rest s) (<[i := line_prefix s]> c).
Proof.
  intros Hk. simpl.
  rewrite RepeatMatcher_Dot; [by rewrite take_line_prefix| |done].
  intros s' c'. apply Hk.
Qed.

Lemma m_Seq_Char x r s c k : m (Seq (Char x) r) (x :: s) c k = m r s c k.
Proof. simpl. by rewrite decide_True. Qed.

Lemma take_app_minus (l s : jsstring) :
  take (length (l ++ s) - length s) (l ++ s) = l.
Proof.
  rewrite length_app.
  replace (length l + length s - length s) with (length l) by lia.
  by rewrite take_app_length.
Qed.

Lemma m_Seq_Group_Lit i l r s c k :
  m (Seq (Group i (Lit l)) r) (l ++ s) c k = m r s (<[i := l]> c) k.
Proof. simpl. rewrite m_Lit. by rewrite take_app_minus. Qed.

Lemma m_Seq_Char_Some x r s c k res :
  m (Seq (Char x) r) s c k = Some res →
  ∃ s', s = x :: s' ∧ m r s' c k = Some res.
Proof.
  simpl. destruct s as [|y s]; [done|]. case_decide; [subst y|done].
  intros H. by exists s.
Qed.

Lemma m_Seq_Group_Lit_Some i l r s c k res :
  m (Seq (Group i (Lit l)) r) s c k = Some res →
  ∃ s', s = l ++ s' ∧ m r s' (<[i := l]> c) k = Some res.
Proof.
  simpl. intros (s' & -> & H)%m_Lit_Some. exists s'.
  by rewrite take_app_minus in H.
Qed.

Lemma NcapturingParens_Lit l : NcapturingParens (Lit l) = 0.
Proof. induction l; simpl; done. Qed.

Lemma tree_segment_eq rest :
  tree_segment ++ rest = ch "/" :: js "griffin-notebooks" ++ ch "/" :: rest.
Proof. reflexivity. Qed.

(** The result array of a successful match of the tree pattern. *)
Definition tree_match (rest : jsstring) : list (option jsstring) :=
  [Some (tree_segment ++ line_prefix rest);
   Some (js "griffin-notebooks");
   Some (line_prefix rest)].

(** At a position where the tree segment starts, the pattern
    matches, and its second group is the rest of the line. *)
Lemma match_here_tree rest :
  match_here TREE_PATTERN (tree_segment ++ rest) = Some (tree_match rest).
Proof.
  unfold match_here, TREE_PATTERN.
  rewrite tree_segment_eq, m_Seq_Char, m_Seq_Group_Lit, m_Seq_Char.
  rewrite m_Group_Star_Dot by (intros; eexists; done).
  cbn [option_bind mbind NcapturingParens].
  rewrite NcapturingParens_Lit.
  cbn [Nat.add seq fmap list_fmap].
  rewrite lookup_insert_ne, !lookup_insert_eq by done.
  unfold tree_match. do 3 f_equal.
  rewrite <- tree_segment_eq.
  rewrite <- (line_prefix_rest rest) at 1 3.
  rewrite app_assoc. apply take_app_minus.
Qed.

(** Elsewhere it does not. *)
Lemma match_here_tree_None s :
  ¬ tree_segment `prefix_of` s → match_here TREE_PATTERN s = None.
Proof.
  intros Hs. unfold match_here.
  destruct (m TREE_PATTERN s ∅ _) as [r|] eqn:Hm; [|done].
  exfalso. apply Hs. unfold TREE_PATTERN in Hm.
  apply m_Seq_Char_Some in Hm as (s1 & -> & Hm).
  apply m_Seq_Group_Lit_Some in Hm as (s2 & -> & Hm).
  apply m_Seq_Char_Some in Hm as (s3 & -> & Hm).
  exists s3. by rewrite tree_segment_eq.
Qed.

Lemma includes_cons l c s : includes l (c :: s) = false → includes l s = false.
Proof. simpl. by intros [_ ?]%orb_false_elim. Qed.

Lemma includes_prefix l s : includes l s = false → ¬ l `prefix_of` s.
Proof.
  destruct s; simpl; intros [H _]%orb_false_elim;
    by apply bool_decide_eq_false in H.
Qed.

Lemma includes_spec l s :
  includes l s = true ↔ ∃ pre post, s = pre ++ l ++ post.
Proof.
  split.
  - induction s as [|c s IH]; simpl.
    + rewrite orb_false_r. intros [post ->]%bool_decide_eq_true. by exists [], post.
    + intros [H|H]%orb_true_iff.
      * apply bool_decide_eq_true in H as [post ->]. by exists [], post.
      * destruct (IH H) as (pre & post & ->). by exists (c :: pre), post.
  - intros (pre & post & ->). induction pre as [|c pre IH]; simpl.
    + assert (Hp : l `prefix_of` l ++ post) by by exists post.
      destruct (l ++ post); simpl; by rewrite bool_decide_eq_true_2.
    + by rewrite IH, orb_true_r.
Qed.

(** A path that does not include the tree segment has no match. *)
Lemma String_match_not_included s :
  includes tree_segment s = false → String_match s TREE_PATTERN = None.
Proof.
  unfold String_match. induction s as [|c s IH]; intros H; cbn [RegExpBuiltinExec].
  - by rewrite match_here_tree_None by by apply includes_prefix.
  - rewrite match_here_tree_None by by apply includes_prefix.
    apply IH. by eapply includes_cons.
Qed.

Lemma RegExpBuiltinExec_here R s a :
  match_here R s = Some a → RegExpBuiltinExec R s = Some a.
Proof. intros H. destruct s; cbn [RegExpBuiltinExec]; by rewrite H. Qed.

(** A path that starts with the tree segment matches there. *)
Lemma String_match_prefix rest :
  String_match (tree_segment ++ rest) TREE_PATTERN = Some (tree_match rest).
Proof.
  unfold String_match. apply RegExpBuiltinExec_here, match_here_tree.
Qed.

(** Every match is a match at an occurrence of the tree segment. *)
Lemma String_match_Some s a :
  String_match s TREE_PATTERN = Some a →
  ∃ pre rest, s = pre ++ tree_segment ++ rest ∧ a = tree_match rest.
Proof.
  unfold String_match. induction s as [|c s IH]; cbn [RegExpBuiltinExec].
  - destruct (match_here TREE_PATTERN []) eqn:E; [|done].
    destruct (decide (tree_segment `prefix_of` [])) as [[? ?]|Hn]; [done|].
    by rewrite match_here_tree_None in E.
  - destruct (decide (tree_segment `prefix_of` (c :: s))) as [[rest Hp]|Hn].
    + rewrite Hp, match_here_tree. intros [= <-]. by exists [], rest.
    + rewrite match_here_tree_None by done.
      intros (pre & rest & -> & ->)%IH. by exists (c :: pre), rest.
Qed.

End RegExpFacts.

(** ** The [opener] plugin *)

Section OpenerFacts.
Import RegExp URI.

(** A string without [%] decodes to itself. *)
Lemma Decode_no_percent s : ch "%" ∉ s → Decode s None = Normal s.
Proof.
  induction s as [|c s IH]; intros Hs; [done|].
  apply not_elem_of_cons in Hs as [Hc Hs]. cbn [Decode].
  destruct (N.eqb_spec c (ch "%")) as [->|_]; [done|].
  by rewrite IH.
Qed.

(** The command on a path whose match has second group [rest]. *)
Lemma execute_captured loc fe a rest :
  String_match (Host.path loc) TREE_PATTERN = Some a →
  a !! 2 = Some (Some rest) →
  opener.execute loc fe =
    match rest with
    | [] => (Normal (), fe)
    | _ :: _ =>
        match decodeURIComponent rest with
        | Throw e => (Throw e, fe)
        | Normal file =>
            (Normal (), started_then (open_call file (search loc)) fe)
        end
    end.
Proof.
  intros Hm Ha. unfold opener.execute. rewrite Hm. cbn [default id].
  rewrite Ha. cbn [mjoin option_join]. by destruct rest.
Qed.

(** The command on a path that starts with the tree segment. *)
Lemma execute_tree_prefix rest search fe :
  opener.execute {| Host.path := tree_segment ++ rest; search := search |} fe =
    match line_prefix rest with
    | [] => (Normal (), fe)
    | _ :: _ =>
        match decodeURIComponent (line_prefix rest) with
        | Throw e => (Throw e, fe)
        | Normal file => (Normal (), started_then (open_call file search) fe)
        end
    end.
Proof.
  rewrite (execute_captured _ fe (tree_match rest) (line_prefix rest));
    [done|apply String_match_prefix|done].
Qed.

(** The command when there is no match, or no second group. *)
Lemma execute_no_group loc fe :
  (∀ a rest, String_match (Host.path loc) TREE_PATTERN = Some a →
             a !! 2 = Some (Some rest) → rest = []) →
  opener.execute loc fe = (Normal (), fe).
Proof.
  intros H. unfold opener.execute.
  destruct (String_match _ _) as [a|]; cbn [default id]; [|done].
  destruct (a !! 2) as [[rest|]|] eqn:Ha; cbn [mjoin option_join]; [|done..].
  by rewrite (H a rest).
Qed.

Lemma completion_unit_cases (x : completion unit) :
  x = Normal () ∨ x = Throw URIError.
Proof. destruct x as [[]|[]]; auto. Qed.

(** The command either finds no non-empty second group and does
    nothing, or decodes the group it found. *)
Lemma execute_cases loc fe :
  (opener.execute loc fe = (Normal (), fe) ∧
   ∀ a rest, String_match (Host.path loc) TREE_PATTERN = Some a →
             a !! 2 = Some (Some rest) → rest = [])
  ∨ (∃ a rest, String_match (Host.path loc) TREE_PATTERN = Some a ∧
               a !! 2 = Some (Some rest) ∧ rest ≠ [] ∧
               opener.execute loc fe =
                 match decodeURIComponent rest with
                 | Throw e => (Throw e, fe)
                 | Normal file =>
                     (Normal (), started_then (open_call file (search loc)) fe)
                 end).
Proof.
  destruct (String_match (Host.path loc) TREE_PATTERN) as [a|] eqn:Hm.
  - destruct (a !! 2) as [[[|c rest]|]|] eqn:Ha.
    + left. split; [by rewrite (execute_captured loc fe a [])|].
      intros; by simplify_eq.
    + right. exists a, (c :: rest).
      by rewrite (execute_captured loc fe a (c :: rest)).
    + left. split; [apply execute_no_group; rewrite Hm|]; intros; by simplify_eq.
    + left. split; [apply execute_no_group; rewrite Hm|]; intros; by simplify_eq.
  - left. split; [apply execute_no_group; rewrite Hm|]; intros; by simplify_eq.
Qed.

(** What the command captured is part of the path. *)
Lemma captured_in_path s a rest c :
  String_match s TREE_PATTERN = Some a → a !! 2 = Some (Some rest) →
  c ∈ rest → c ∈ s.
Proof.
  intros (pre & rest0 & -> & ->)%String_match_Some [= <-] Hc.
  rewrite <- (line_prefix_rest rest0). set_solver.
Qed.

(** Once [app.started] is fulfilled and the promise jobs have run,
    the scheduled call is the last one the document manager got. *)
Lemma started_then_runs cb fe :
  last (docManager_opened (run_jobs (resolve_started (started_then cb fe))))
  = Some cb.
Proof.
  unfold started_then, resolve_started, run_jobs.
  destruct (started_settled fe); simpl; by rewrite ?app_assoc, last_snoc.
Qed.

End OpenerFacts.

(** ** Statements about the ['router:tree'] command *)

(** C1, as the specification states it, fails: the pattern is not
    anchored, so a path that does not begin with the tree segment but
    contains it further on is matched at that occurrence, and the
    command schedules an open request. *)
Lemma router_tree_opens_inner_segment :
  let loc := {| Host.path := js "/x/griffin-notebooks/a.ipynb"; search := None |} in
  ¬ tree_segment `prefix_of` Host.path loc ∧
  opener.execute loc fresh_frontEnd
    = (Normal (), started_then (open_call (js "a.ipynb") None) fresh_frontEnd) ∧
  opener.execute loc fresh_frontEnd ≠ (Normal (), fresh_frontEnd).
Proof.
  cbv zeta. cbn [Host.path]. split; [|split].
  - refine (proj1 (bool_decide_eq_false _) _). vm_compute. reflexivity.
  - vm_compute. reflexivity.
  - vm_compute. discriminate.
Qed.

(** C1, amended: for every input path that does not contain the tree
    segment [/griffin-notebooks/] anywhere, the ['router:tree'] command
    takes no action: it returns normally and the front end, with its
    pending and performed open requests, is unchanged. *)
Theorem router_tree_no_segment_no_action (loc : ILocation) (fe : FrontEnd) :
  includes tree_segment (Host.path loc) = false →
  opener.execute loc fe = (Normal (), fe).
Proof.
  intros H. apply execute_no_group. intros a rest Hm.
  by rewrite String_match_not_included in Hm.
Qed.

Lemma router_tree_no_segment_no_action_witness :
  let loc := {| Host.path := js "/notebooks/a.ipynb"; search := Some (js "?factory=Notebook") |} in
  includes tree_segment (Host.path loc) = false ∧
  opener.execute loc fresh_frontEnd = (Normal (), fresh_frontEnd).
Proof.
  cbv zeta. split.
  - vm_compute. reflexivity.
  - apply (router_tree_no_segment_no_action
             {| Host.path := js "/notebooks/a.ipynb"; search := Some (js "?factory=Notebook") |}).
    vm_compute. reflexivity.
Defined.

(** C2, as the specification states it, fails: on a matched path whose
    remainder is not well-formed percent-encoding, [decodeURIComponent]
    throws a URIError that the command does not catch. *)
Lemma router_tree_throws_on_malformed_escape :
  opener.execute {| Host.path := js "/griffin-notebooks/100%.ipynb"; search := None |}
    fresh_frontEnd
  = (Throw URIError, fresh_frontEnd).
Proof. vm_compute. reflexivity. Qed.

(** C2, amended: the ['router:tree'] command throws exactly when the
    second group of the match is a string on which [decodeURIComponent]
    throws; the error is a URIError, and the front end is then
    unchanged.  In every other case it returns normally, in particular
    for every path without a [%]. *)
Theorem router_tree_throws_iff_decode_fails (loc : ILocation) (fe : FrontEnd) :
  ((opener.execute loc fe).1 = Throw URIError ↔
     ∃ a rest, RegExp.String_match (Host.path loc) TREE_PATTERN = Some a ∧
               a !! 2 = Some (Some rest) ∧
               URI.decodeURIComponent rest = Throw URIError)
  ∧ ((opener.execute loc fe).1 ≠ Normal () → opener.execute loc fe = (Throw URIError, fe))
  ∧ (ch "%" ∉ Host.path loc → (opener.execute loc fe).1 = Normal ()).
Proof.
  assert (Hiff : (opener.execute loc fe).1 = Throw URIError ↔
     ∃ a rest, RegExp.String_match (Host.path loc) TREE_PATTERN = Some a ∧
               a !! 2 = Some (Some rest) ∧
               URI.decodeURIComponent rest = Throw URIError).
  { destruct (execute_cases loc fe) as [[-> Hnone]|(a & rest & Hm & Ha & Hne & ->)].
    - split; [done|]. intros (a & rest & Hm & Ha & Hd).
      rewrite (Hnone a rest Hm Ha) in Hd. done.
    - split.
      + intros H. exists a, rest. split_and!; [done..|].
        destruct (URI.decodeURIComponent rest) as [?|[]]; done.
      + intros (a' & rest' & Hm' & Ha' & Hd). simplify_eq. by rewrite Hd. }
  split_and!; [done|..].
  - destruct (execute_cases loc fe) as [[-> _]|(a & rest & _ & _ & _ & ->)]; [done|].
    by destruct (URI.decodeURIComponent rest) as [?|[]].
  - intros Hp.
    destruct (completion_unit_cases (opener.execute loc fe).1) as [|Ht]; [done|].
    apply Hiff in Ht as (a & rest & Hm & Ha & Hd).
    unfold URI.decodeURIComponent in Hd.
    rewrite (Decode_no_percent rest) in Hd; [done|].
    intros Hin. apply Hp. by eapply captured_in_path.
Qed.

Lemma router_tree_throws_iff_decode_fails_witness :
  let loc := {| Host.path := js "/griffin-notebooks/a b.ipynb"; search := None |} in
  (ch "%" ∉ Host.path loc) ∧ (opener.execute loc fresh_frontEnd).1 = Normal ().
Proof.
  assert (H : ch "%" ∉ js "/griffin-notebooks/a b.ipynb").
  { refine (proj1 (bool_decide_eq_false _) _). vm_compute. reflexivity. }
  cbv zeta. split; [exact H|].
  exact (proj2 (proj2 (router_tree_throws_iff_decode_fails
    {| Host.path := js "/griffin-notebooks/a b.ipynb"; search := None |}
    fresh_frontEnd)) H).
Defined.

(** C3, as the specification states it, fails: [.] does not match a
    line terminator, so the second group stops at the first one and is
    not the full remainder of the path; and a remainder that is not
    well-formed percent-encoding is not decoded to any identifier. *)
Lemma router_tree_stops_at_line_terminator :
  let rest := js "a" ++ [10%N] ++ js "b" in
  (rest ≠ [] ∧
   URI.decodeURIComponent rest = Normal rest ∧
   opener.execute {| Host.path := tree_segment ++ rest; search := None |} fresh_frontEnd
     = (Normal (), started_then (open_call (js "a") None) fresh_frontEnd) ∧
   js "a" ≠ rest) ∧
  (js "100%.ipynb" ≠ [] ∧
   opener.execute {| Host.path := tree_segment ++ js "100%.ipynb"; search := None |}
     fresh_frontEnd
     = (Throw URIError, fresh_frontEnd)).
Proof.
  cbv zeta. split_and!.
  - vm_compute. discriminate.
  - vm_compute. reflexivity.
  - vm_compute. reflexivity.
  - vm_compute. discriminate.
  - vm_compute. discriminate.
  - vm_compute. reflexivity.
Qed.

(** C3, amended: for every path [/griffin-notebooks/<encoded-id>]
    whose [<encoded-id>] is non-empty, contains no line terminator and
    is decoded by [decodeURIComponent] to [id], the second group of the
    match is exactly [<encoded-id>], and the command schedules
    [docManager.open(id, factory, undefined, {ref: '_noref'})], which
    the document manager receives once [app.started] is fulfilled. *)
Theorem router_tree_opens_decoded_remainder
    (rest id : jsstring) (search : option jsstring) (fe : FrontEnd) :
  rest ≠ [] →
  forallb (λ c, negb (RegExp.IsLineTerminator c)) rest = true →
  URI.decodeURIComponent rest = Normal id →
  let loc := {| Host.path := tree_segment ++ rest; search := search |} in
  RegExp.String_match (Host.path loc) TREE_PATTERN
    = Some [Some (tree_segment ++ rest); Some (js "griffin-notebooks"); Some rest] ∧
  opener.execute loc fe = (Normal (), started_then (open_call id search) fe) ∧
  last (docManager_opened (run_jobs (resolve_started (opener.execute loc fe).2)))
    = Some {| open_path := id; open_widgetName := opener.factory search;
              open_kernel := None; open_ref := js "_noref" |}.
Proof.
  intros Hne Hline Hid loc. unfold loc. cbn [Host.path].
  assert (Hex : opener.execute
            {| Host.path := tree_segment ++ rest; search := search |} fe
          = (Normal (), started_then (open_call id search) fe)).
  { rewrite execute_tree_prefix, (line_prefix_id rest Hline), Hid.
    by destruct rest. }
  split_and!.
  - rewrite String_match_prefix. unfold tree_match.
    by rewrite (line_prefix_id rest Hline).
  - done.
  - rewrite Hex. apply started_then_runs.
Qed.

Lemma router_tree_opens_decoded_remainder_witness :
  let rest := js "foo%2Fbar.ipynb" in
  let search := Some (js "?factory=Notebook") in
  let loc := {| Host.path := js "/griffin-notebooks/foo%2Fbar.ipynb"; search := search |} in
  (rest ≠ [] ∧
   forallb (λ c, negb (RegExp.IsLineTerminator c)) rest = true ∧
   URI.decodeURIComponent rest = Normal (js "foo/bar.ipynb")) ∧
  opener.factory search = js "Notebook" ∧
  last (docManager_opened (run_jobs (resolve_started
          (opener.execute loc fresh_frontEnd).2)))
    = Some {| open_path := js "foo/bar.ipynb"; open_widgetName := opener.factory search;
              open_kernel := None; open_ref := js "_noref" |}.
Proof.
  assert (H1 : js "foo%2Fbar.ipynb" ≠ []) by (vm_compute; discriminate).
  assert (H2 : forallb (λ c, negb (RegExp.IsLineTerminator c)) (js "foo%2Fbar.ipynb") = true)
    by (vm_compute; reflexivity).
  assert (H3 : URI.decodeURIComponent (js "foo%2Fbar.ipynb") = Normal (js "foo/bar.ipynb"))
    by (vm_compute; reflexivity).
  cbv zeta. split; [by split_and!|]. split; [vm_compute; reflexivity|].
  exact (proj2 (proj2 (router_tree_opens_decoded_remainder
    (js "foo%2Fbar.ipynb") (js "foo/bar.ipynb") (Some (js "?factory=Notebook"))
    fresh_frontEnd H1 H2 H3))).
Defined.

(** C5: for every input path whose match against the tree pattern
    yields no second group, or an empty one, the ['router:tree']
    command performs no document-open action: it returns normally and
    the front end is unchanged. *)
Theorem router_tree_empty_group_no_action (loc : ILocation) (fe : FrontEnd) :
  (∀ a rest, RegExp.String_match (Host.path loc) TREE_PATTERN = Some a →
             a !! 2 = Some (Some rest) → rest = []) →
  opener.execute loc fe = (Normal (), fe).
Proof. apply execute_no_group. Qed.

Lemma router_tree_empty_group_no_action_witness :
  let loc := {| Host.path := js "/griffin-notebooks/"; search := None |} in
  (∀ a rest, RegExp.String_match (Host.path loc) TREE_PATTERN = Some a →
             a !! 2 = Some (Some rest) → rest = []) ∧
  opener.execute loc fresh_frontEnd = (Normal (), fresh_frontEnd).
Proof.
  assert (Hm : RegExp.String_match (js "/griffin-notebooks/") TREE_PATTERN
    = Some [Some (js "/griffin-notebooks/"); Some (js "griffin-notebooks"); Some []])
    by (vm_compute; reflexivity).
  assert (H : ∀ a rest,
    RegExp.String_match (js "/griffin-notebooks/") TREE_PATTERN = Some a →
    a !! 2 = Some (Some rest) → rest = []).
  { intros a rest Ha Hr. rewrite Hm in Ha.
    injection Ha as <-. cbn in Hr. by injection Hr as <-. }
  cbv zeta. split; [exact H|].
  exact (router_tree_empty_group_no_action
           {| Host.path := js "/griffin-notebooks/"; search := None |}
           fresh_frontEnd H).
Defined.

(** ** The [menus] and [theme] plugins *)

(** C8: the [menus] plugin disposes exactly the file menu and the tabs
    menu, and leaves every other menu of the menu bar as it was. *)
Theorem menus_activate_disposes_file_and_tabs (menu : IMainMenu) :
  let menu' := menus.activate menu in
  isDisposed (fileMenu menu') = true ∧
  isDisposed (tabsMenu menu') = true ∧
  editMenu menu' = editMenu menu ∧
  helpMenu menu' = helpMenu menu ∧
  kernelMenu menu' = kernelMenu menu ∧
  runMenu menu' = runMenu menu ∧
  settingsMenu menu' = settingsMenu menu ∧
  viewMenu menu' = viewMenu menu.
Proof. cbv zeta. unfold menus.activate. simpl. split_and!; reflexivity. Qed.

(** C4: the theme the [theme] plugin selects is a total function of
    the [darkTheme] entry of the page configuration: it is
    ['JupyterLab Dark'] when the entry is the string ['true'], and
    ['JupyterLab Light'] for any other string and for a missing entry;
    the theme manager receives that one [setTheme] call and nothing
    else. *)
Theorem theme_activate_dark_iff_true
    (config : gmap jsstring jsstring) (themeManager : IThemeManager) :
  let selected :=
    if bool_decide (config !! js "darkTheme" = Some (js "true"))
    then js "JupyterLab Dark" else js "JupyterLab Light" in
  theme.activate config themeManager = setTheme selected themeManager ∧
  theme (theme.activate config themeManager) = Some selected ∧
  setTheme_calls (theme.activate config themeManager)
    = setTheme_calls themeManager ++ [selected] ∧
  js "JupyterLab Dark" ≠ js "JupyterLab Light".
Proof.
  cbv zeta.
  assert (H : theme.activate config themeManager =
    setTheme (if bool_decide (config !! js "darkTheme" = Some (js "true"))
              then js "JupyterLab Dark" else js "JupyterLab Light") themeManager).
  { unfold theme.activate, getOption.
    destruct (config !! js "darkTheme") as [v|] eqn:Hv; cbn [default id].
    - destruct (decide (v = js "true")) as [->|Hne].
      + by rewrite bool_decide_eq_true_2.
      + rewrite bool_decide_eq_false_2; [done|]. by intros [= ->].
    - rewrite decide_False by (vm_compute; discriminate).
      by rewrite bool_decide_eq_false_2. }
  rewrite H. split_and!; [done..|]. vm_compute. discriminate.
Qed.

(** ** The shell and the application class *)

Section ShellFacts.

Lemma GriffinNotebookShell_new_hidden : top_hidden GriffinNotebookShell.new.
Proof. by split. Qed.

Lemma call_expandTop_Griffin this :
  class this = GriffinNotebookShellClass → call_expandTop this = this.
Proof. intros H. unfold call_expandTop. by rewrite H. Qed.

Lemma iter_call_expandTop_Griffin n this :
  class this = GriffinNotebookShellClass → Nat.iter n call_expandTop this = this.
Proof.
  intros H. induction n as [|n IH]; simpl; [done|].
  by rewrite IH, call_expandTop_Griffin.
Qed.

(** The constructor of the application allocates at most one shell. *)
Lemma GriffinNotebookApp_new_heap options heap :
  (GriffinNotebookApp.new options heap).2 = heap
  ∨ (GriffinNotebookApp.new options heap).2 = heap ++ [GriffinNotebookShell.new].
Proof.
  unfold GriffinNotebookApp.new, alloc_GriffinNotebookShell.
  destruct options as [o|].
  - destruct (nullish (get_property o (js "shell"))); simpl; auto.
  - unfold get_property. rewrite lookup_singleton_eq. simpl. auto.
Qed.

(** With a shell that is not nullish, the options are forwarded as
    they are and nothing is allocated. *)
Lemma GriffinNotebookApp_new_supplied_shell o heap :
  nullish (get_property o (js "shell")) = false →
  GriffinNotebookApp.new (Some o) heap = (o, heap).
Proof.
  intros H. unfold GriffinNotebookApp.new. rewrite H. f_equal.
  apply insert_id. unfold get_property in *.
  destruct (o !! js "shell") as [v|]; [done|]. done.
Qed.

Lemma perform_top_panel_hidden σ op :
  top_panel_hidden σ → top_panel_hidden (perform σ op).
Proof.
  unfold top_panel_hidden. intros H. destruct op; cbn [perform shells]; try done.
  - apply Forall_app. split; [done|].
    apply Forall_singleton. intros _. apply GriffinNotebookShell_new_hidden.
  - apply Forall_alter; [done|]. intros o _ Ho Hc.
    assert (Ho' : class o = GriffinNotebookShellClass).
    { unfold call_expandTop in Hc. by destruct (class o). }
    rewrite call_expandTop_Griffin by done. by apply Ho.
  - destruct (GriffinNotebookApp_new_heap options (shells σ)) as [->| ->]; [done|].
    apply Forall_app. split; [done|].
    apply Forall_singleton. intros _. apply GriffinNotebookShell_new_hidden.
Qed.

End ShellFacts.

(** C6: after its construction a [GriffinNotebookShell] has its top
    panel hidden; calling [expandTop] on it any number of times leaves
    the shell as it is; and every operation of the repository (the
    three plugins, the two constructors and [expandTop]) keeps the top
    panel of every [GriffinNotebookShell] hidden. *)
Theorem expandTop_keeps_top_hidden :
  top_hidden GriffinNotebookShell.new ∧
  (∀ n, Nat.iter n GriffinNotebookShell.expandTop GriffinNotebookShell.new
        = GriffinNotebookShell.new) ∧
  (∀ n, Nat.iter n call_expandTop GriffinNotebookShell.new
        = GriffinNotebookShell.new) ∧
  (∀ ops σ, top_panel_hidden σ → top_panel_hidden (foldl perform σ ops)).
Proof.
  split_and!.
  - apply GriffinNotebookShell_new_hidden.
  - intros n. induction n as [|n IH]; simpl; [done|]. by rewrite IH.
  - intros n. by apply iter_call_expandTop_Griffin.
  - intros ops. induction ops as [|op ops IH]; intros σ H; simpl; [done|].
    apply IH. by apply perform_top_panel_hidden.
Qed.

Lemma expandTop_keeps_top_hidden_witness :
  let σ := {| shells := [GriffinNotebookShell.new];
              frontEnd := fresh_frontEnd;
              mainMenu := {| editMenu := {| isDisposed := false |};
                             fileMenu := {| isDisposed := false |};
                             helpMenu := {| isDisposed := false |};
                             kernelMenu := {| isDisposed := false |};
                             runMenu := {| isDisposed := false |};
                             settingsMenu := {| isDisposed := false |};
                             tabsMenu := {| isDisposed := false |};
                             viewMenu := {| isDisposed := false |} |};
              themeManager := {| theme := None; setTheme_calls := [] |} |} in
  top_panel_hidden σ ∧
  top_panel_hidden (foldl perform σ [ExpandTop 0; NewApp None; ExpandTop 1; ExpandTop 0]).
Proof.
  intros σ.
  assert (H : top_panel_hidden σ).
  { apply Forall_singleton. intros _. by split. }
  split; [exact H|].
  exact (proj2 (proj2 (proj2 expandTop_keeps_top_hidden))
           [ExpandTop 0; NewApp None; ExpandTop 1; ExpandTop 0] σ H).
Defined.

(** C9: when the caller of the [GriffinNotebookApp] constructor gives
    no options, or options whose [shell] is nullish, the options given
    to the base constructor hold a reference to one freshly
    constructed [GriffinNotebookShell] as [shell], and every other
    field as the caller supplied it. *)
Theorem GriffinNotebookApp_new_default_shell
    (options : option (gmap jsstring value)) (heap : list ShellObject) :
  (options = None ∨
   ∃ o, options = Some o ∧ nullish (get_property o (js "shell")) = true) →
  let result := GriffinNotebookApp.new options heap in
  result.1 !! js "shell" = Some (Ref (length heap)) ∧
  heap !! length heap = None ∧
  result.2 = heap ++ [GriffinNotebookShell.new] ∧
  result.2 !! length heap = Some GriffinNotebookShell.new ∧
  (∀ name, name ≠ js "shell" → result.1 !! name = default ∅ options !! name).
Proof.
  intros H. cbv zeta.
  assert (Hnew : GriffinNotebookApp.new options heap =
    (<[js "shell" := Ref (length heap)]> (default ∅ options),
     heap ++ [GriffinNotebookShell.new])).
  { unfold GriffinNotebookApp.new, alloc_GriffinNotebookShell.
    destruct H as [->|(o & -> & Hn)].
    - unfold get_property. rewrite lookup_singleton_eq. cbn [default id nullish].
      by rewrite insert_singleton_eq.
    - by rewrite Hn. }
  rewrite Hnew. cbn [fst snd]. split_and!.
  - apply lookup_insert_eq.
  - by apply lookup_ge_None_2.
  - done.
  - by rewrite lookup_app_r, Nat.sub_diag.
  - intros name Hne. by rewrite lookup_insert_ne.
Qed.

Lemma GriffinNotebookApp_new_default_shell_witness :
  let options : option (gmap jsstring value) := Some {[ js "restored" := Ref 7 ]} in
  (options = None ∨
   ∃ o, options = Some o ∧ nullish (get_property o (js "shell")) = true) ∧
  (GriffinNotebookApp.new options []).1 !! js "shell" = Some (Ref 0) ∧
  (GriffinNotebookApp.new options []).1 !! js "restored" = Some (Ref 7) ∧
  (GriffinNotebookApp.new options []).2 = [GriffinNotebookShell.new].
Proof.
  intros options.
  assert (H : options = None ∨
    ∃ o, options = Some o ∧ nullish (get_property o (js "shell")) = true).
  { right. exists {[ js "restored" := Ref 7 ]}. split; [reflexivity|].
    vm_compute. reflexivity. }
  split; [exact H|].
  pose proof (GriffinNotebookApp_new_default_shell options [] H) as (H1 & _ & H3 & _ & H5).
  split_and!; [exact H1| |exact H3].
  rewrite H5; [vm_compute; reflexivity|vm_compute; discriminate].
Defined.

(** ** The [factory] parameter of the query string *)

Section URLSearchParamsFacts.
Import URLSearchParams.
Local Open Scope N_scope.

Lemma ToUSVString_ascii_app a b :
  forallb (λ c, c <? 128) a = true → ToUSVString (a ++ b) = a ++ ToUSVString b.
Proof.
  induction a as [|c a IH]; [done|]. cbn [forallb app].
  intros [Hc Ha]%andb_true_iff. apply N.ltb_lt in Hc.
  cbn [ToUSVString]. unfold is_high_surrogate, is_low_surrogate.
  destruct (N.leb_spec 55296 c); [lia|].
  destruct (N.leb_spec 56320 c); [lia|]. cbn [andb]. by rewrite IH.
Qed.

Lemma utf8_encode_ascii_app a b :
  forallb (λ c, c <? 128) a = true → utf8_encode (a ++ b) = a ++ utf8_encode b.
Proof.
  unfold utf8_encode. induction a as [|c a IH]; [done|]. cbn [forallb app].
  intros [Hc Ha]%andb_true_iff. apply N.ltb_lt in Hc.
  rewrite bind_cons, IH by done. unfold utf8_encode_scalar.
  destruct (N.leb_spec c 127); [done|lia].
Qed.

Lemma utf8_decode_ascii a :
  forallb (λ c, c <? 128) a = true → utf8_decode_without_BOM a = a.
Proof.
  unfold utf8_decode_without_BOM. induction a as [|c a IH]; [done|].
  cbn [forallb]. intros [Hc Ha]%andb_true_iff. apply N.ltb_lt in Hc.
  cbn [utf8_decode_from]. unfold utf8_handler. cbn [bytes_needed utf8_decoder_init].
  unfold utf8_lead. destruct (N.leb_spec c 127); [|lia].
  cbn [app]. by rewrite IH.
Qed.

Lemma of_USVString_ascii a :
  forallb (λ c, c <? 128) a = true → of_USVString a = a.
Proof.
  unfold of_USVString. induction a as [|c a IH]; [done|].
  cbn [forallb]. intros [Hc Ha]%andb_true_iff. apply N.ltb_lt in Hc.
  rewrite bind_cons, IH by done. unfold URI.UTF16EncodeCodePoint.
  destruct (N.leb_spec c 65535); [done|lia].
Qed.

Lemma split_on_nonempty sep l : split_on sep l ≠ [].
Proof.
  destruct l as [|b l]; [done|]. cbn [split_on].
  destruct (b =? sep); [done|]. by destruct (split_on sep l).
Qed.

Lemma split_on_app sep a b :
  forallb (λ c, negb (c =? sep)) a = true →
  split_on sep (a ++ sep :: b) = a :: split_on sep b.
Proof.
  induction a as [|c a IH]; cbn [forallb app split_on].
  - by rewrite N.eqb_refl.
  - intros [Hc Ha]%andb_true_iff. apply negb_true_iff in Hc.
    by rewrite Hc, IH.
Qed.

Lemma split_on_no_sep sep a :
  forallb (λ c, negb (c =? sep)) a = true → split_on sep a = [a].
Proof.
  induction a as [|c a IH]; cbn [forallb split_on]; [done|].
  intros [Hc Ha]%andb_true_iff. apply negb_true_iff in Hc.
  by rewrite Hc, IH.
Qed.

Lemma break_on_app sep a b :
  forallb (λ c, negb (c =? sep)) a = true →
  break_on sep (a ++ sep :: b) = (a, Some b).
Proof.
  induction a as [|c a IH]; cbn [forallb app break_on].
  - by rewrite N.eqb_refl.
  - intros [Hc Ha]%andb_true_iff. apply negb_true_iff in Hc.
    by rewrite Hc, IH.
Qed.

Lemma plain_inv c :
  plain c = true →
  (c <? 128) = true ∧ (c =? ch "&") = false ∧
  (c =? ch "+") = false ∧ (c =? ch "%") = false.
Proof.
  unfold plain. rewrite !andb_true_iff, !negb_true_iff. tauto.
Qed.

Lemma plain_ascii l :
  forallb plain l = true → forallb (λ c, c <? 128) l = true.
Proof.
  induction l as [|c l IH]; [done|]. cbn [forallb].
  intros [Hc Hl]%andb_true_iff. apply plain_inv in Hc as (-> & _).
  by rewrite IH.
Qed.

Lemma plain_no_amp l :
  forallb plain l = true → forallb (λ c, negb (c =? ch "&")) l = true.
Proof.
  induction l as [|c l IH]; [done|]. cbn [forallb].
  intros [Hc Hl]%andb_true_iff. apply plain_inv in Hc as (_ & -> & _).
  by rewrite IH.
Qed.

Lemma plus_to_space_plain l : forallb plain l = true → plus_to_space l = l.
Proof.
  unfold plus_to_space. induction l as [|c l IH]; [done|]. cbn [forallb].
  intros [Hc Hl]%andb_true_iff. apply plain_inv in Hc as (_ & _ & Hc & _).
  rewrite fmap_cons, IH by done. by rewrite Hc.
Qed.

Lemma percent_decode_plain l : forallb plain l = true → percent_decode l = l.
Proof.
  induction l as [|c l IH]; [done|]. cbn [forallb].
  intros [Hc Hl]%andb_true_iff. apply plain_inv in Hc as (_ & _ & _ & Hc).
  cbn [percent_decode]. by rewrite Hc, IH.
Qed.

(** A segment [factory=<name>] with a plain name is the tuple
    [(factory, <name>)]. *)
Lemma parse_tuple_factory name :
  forallb plain name = true →
  parse_tuple (js "factory=" ++ name) = (js "factory", name).
Proof.
  intros Hn. unfold parse_tuple.
  change (js "factory=" ++ name) with (js "factory" ++ ch "=" :: name).
  rewrite break_on_app by (vm_compute; reflexivity).
  cbn [default id].
  assert (Hkey : of_USVString (utf8_decode_without_BOM
            (percent_decode (plus_to_space (js "factory")))) = js "factory")
    by (vm_compute; reflexivity).
  rewrite Hkey. f_equal.
  rewrite plus_to_space_plain, percent_decode_plain by done.
  rewrite utf8_decode_ascii by by apply plain_ascii.
  apply of_USVString_ascii. by apply plain_ascii.
Qed.

Lemma get_first name v params :
  get ((name, v) :: params) name = Some v.
Proof. unfold get. cbn [list_find]. by rewrite decide_True. Qed.

(** The parser on the bytes [factory=<name>], alone or followed by
    [&] and anything. *)
Lemma urlencoded_parse_factory_first name bytes :
  forallb plain name = true →
  (bytes = [] ∨ ∃ t, bytes = ch "&" :: t) →
  ∃ params,
    urlencoded_parse (js "factory=" ++ name ++ bytes)
    = (js "factory", name) :: params.
Proof.
  intros Hn Hb. unfold urlencoded_parse.
  assert (Hsep : forallb (λ c, negb (c =? ch "&")) (js "factory=" ++ name) = true).
  { rewrite forallb_app, (plain_no_amp name) by done. vm_compute. reflexivity. }
  assert (Hne : js "factory=" ++ name ≠ []) by done.
  destruct Hb as [->|[t ->]].
  - rewrite app_nil_r, split_on_no_sep by done.
    rewrite filter_cons_True by done.
    rewrite fmap_cons, parse_tuple_factory by done. eauto.
  - rewrite app_assoc, split_on_app by done.
    rewrite filter_cons_True by done.
    rewrite fmap_cons, parse_tuple_factory by done. eauto.
Qed.

(** The same on the search string, with or without its [?]. *)
Lemma new_factory_first (q : bool) name tail :
  forallb plain name = true →
  (tail = [] ∨ ∃ t, tail = ch "&" :: t) →
  ∃ params,
    new ((if q then js "?" else []) ++ js "factory=" ++ name ++ tail)
    = (js "factory", name) :: params.
Proof.
  intros Hn Ht. unfold new.
  assert (Ha : forallb (λ c, c <? 128)
                 ((if q then js "?" else []) ++ js "factory=" ++ name) = true).
  { rewrite !forallb_app, (plain_ascii name) by done. by destruct q. }
  rewrite (app_assoc (js "factory=")), (app_assoc _ _ tail).
  rewrite ToUSVString_ascii_app by done.
  rewrite <- !app_assoc.
  assert (Hu : ToUSVString tail = [] ∨ ∃ t, ToUSVString tail = ch "&" :: t).
  { destruct Ht as [->|[t ->]]; [by left|right]. by exists (ToUSVString t). }
  assert (Hstrip :
    match (if q then js "?" else []) ++ js "factory=" ++ name ++ ToUSVString tail with
    | c :: t =>
        if c =? ch "?" then t
        else (if q then js "?" else []) ++ js "factory=" ++ name ++ ToUSVString tail
    | [] => (if q then js "?" else []) ++ js "factory=" ++ name ++ ToUSVString tail
    end = js "factory=" ++ name ++ ToUSVString tail) by by destruct q.
  rewrite Hstrip.
  rewrite (app_assoc (js "factory=")).
  rewrite utf8_encode_ascii_app
    by (rewrite forallb_app, (plain_ascii name) by done; vm_compute; reflexivity).
  rewrite <- app_assoc.
  apply urlencoded_parse_factory_first; [done|].
  destruct Hu as [->|[t ->]]; [by left|right].
  exists (utf8_encode t). unfold utf8_encode. by rewrite bind_cons.
Qed.

Lemma factory_plain_first (q : bool) name tail :
  forallb plain name = true →
  (tail = [] ∨ ∃ t, tail = ch "&" :: t) →
  opener.factory (Some ((if q then js "?" else []) ++ js "factory=" ++ name ++ tail))
  = name.
Proof.
  intros Hn Ht. unfold opener.factory.
  destruct (new_factory_first q name tail Hn Ht) as [params ->].
  by rewrite get_first.
Qed.

Lemma get_list_find params name :
  get params name = (λ r, r.2.2) <$> list_find (λ p, p.1 = name) params.
Proof. unfold get. by destruct (list_find _ params) as [[i p]|]. Qed.

End URLSearchParamsFacts.

(** C7, as the specification states it, fails: [get] returns the
    value of the first parameter named [factory], so a query string
    that contains [factory=b] after an earlier [factory=a] resolves to
    [a]. *)
Lemma factory_first_parameter_wins :
  let q := js "?factory=a&factory=b" in
  includes (js "factory=b") q = true ∧
  URLSearchParams.new q = [(js "factory", js "a"); (js "factory", js "b")] ∧
  opener.factory (Some q) = js "a" ∧
  js "a" ≠ js "b".
Proof.
  cbv zeta. split_and!.
  - vm_compute. reflexivity.
  - vm_compute. reflexivity.
  - vm_compute. reflexivity.
  - vm_compute. discriminate.
Qed.

(** C7, amended: for every query string, the resolved document-view
    kind is the value of the first parameter named [factory] in the
    form-urlencoded parse of the query string; in particular a query
    string that starts, after an optional [?], with [factory=<name>],
    where [<name>] has only ASCII characters other than [&], [+] and
    [%] and is followed by the end of the string or by [&], resolves
    to [<name>].  When no parameter is named [factory], or there is no
    search string, the resolved view kind is the literal ['default']. *)
Theorem factory_is_first_factory_parameter :
  (∀ q, opener.factory (Some q) =
        match list_find (λ p, p.1 = js "factory") (URLSearchParams.new q) with
        | Some (_, (_, v)) => v
        | None => js "default"
        end) ∧
  opener.factory None = js "default" ∧
  (∀ (question : bool) name tail,
     forallb plain name = true →
     (tail = [] ∨ ∃ t, tail = ch "&" :: t) →
     opener.factory
       (Some ((if question then js "?" else []) ++ js "factory=" ++ name ++ tail))
     = name) ∧
  (∀ q, Forall (λ p, p.1 ≠ js "factory") (URLSearchParams.new q) →
        opener.factory (Some q) = js "default").
Proof.
  assert (H1 : ∀ q, opener.factory (Some q) =
        match list_find (λ p, p.1 = js "factory") (URLSearchParams.new q) with
        | Some (_, (_, v)) => v
        | None => js "default"
        end).
  { intros q. unfold opener.factory. rewrite get_list_find.
    by destruct (list_find _ _) as [[i [n v]]|]. }
  split_and!.
  - exact H1.
  - reflexivity.
  - apply factory_plain_first.
  - intros q Hq. rewrite H1.
    destruct (list_find _ _) as [[i [n v]]|] eqn:Hf; [|done].
    apply list_find_Some in Hf as (Hi & Hn & _).
    rewrite Forall_lookup in Hq. by destruct (Hq i (n, v) Hi).
Qed.

Lemma factory_is_first_factory_parameter_witness :
  (forallb plain (js "Notebook") = true ∧
   (js "&factory=Editor" = [] ∨ ∃ t, js "&factory=Editor" = ch "&" :: t) ∧
   opener.factory (Some (js "?factory=Notebook&factory=Editor")) = js "Notebook") ∧
  (Forall (λ p : jsstring * jsstring, p.1 ≠ js "factory") (URLSearchParams.new (js "?a=b")) ∧
   opener.factory (Some (js "?a=b")) = js "default").
Proof.
  assert (Hp : forallb plain (js "Notebook") = true) by (vm_compute; reflexivity).
  assert (Ht : js "&factory=Editor" = [] ∨ ∃ t, js "&factory=Editor" = ch "&" :: t).
  { right. exists (js "factory=Editor"). reflexivity. }
  assert (Ha : Forall (λ p : jsstring * jsstring, p.1 ≠ js "factory")
                 (URLSearchParams.new (js "?a=b"))).
  { replace (URLSearchParams.new (js "?a=b")) with [(js "a", js "b")]
      by (vm_compute; reflexivity).
    apply Forall_singleton. vm_compute. discriminate. }
  split; [split_and!; [exact Hp|exact Ht|]|split; [exact Ha|]].
  - exact (proj1 (proj2 (proj2 factory_is_first_factory_parameter))
             true (js "Notebook") (js "&factory=Editor") Hp Ht).
  - exact (proj2 (proj2 (proj2 factory_is_first_factory_parameter))
             (js "?a=b") Ha).
Defined.

(** * Further properties of the sources *)

(** ** Matching in general, and the tree pattern *)

Section MatcherFacts.
Import RegExp.





Lemma prefix_of_app_long (l x y : jsstring) :
  length l ≤ length x → l `prefix_of` x ++ y → l `prefix_of` x.
Proof.
  intros Hlen [k Hk].
  assert (Ht : take (length l) (x ++ y) = l) by by rewrite Hk, take_app_length.
  rewrite take_app_le in Ht by done. rewrite <- Ht. apply prefix_take.
Qed.

Lemma line_prefix_no_terminator s :
  forallb (λ c, negb (IsLineTerminator c)) (line_prefix s) = true.
Proof.
  induction s as [|c s IH]; [done|]. cbn [line_prefix].
  destruct (IsLineTerminator c) eqn:Hc; [done|].
  cbn [forallb]. by rewrite Hc, IH.
Qed.

Lemma line_rest_starts_with_terminator s :
  line_rest s = [] ∨ ∃ c post, line_rest s = c :: post ∧ IsLineTerminator c = true.
Proof.
  induction s as [|c s IH]; [by left|]. cbn [line_rest].
  destruct (IsLineTerminator c) eqn:Hc; [|done]. right. by exists c, s.
Qed.

Lemma String_match_first_occurrence pre rest :
  includes tree_segment (pre ++ js "/griffin-notebooks") = false →
  String_match (pre ++ tree_segment ++ rest) TREE_PATTERN = Some (tree_match rest).
Proof.
  unfold String_match. induction pre as [|c pre IH]; intros Hpre.
  - apply String_match_prefix.
  - cbn [app RegExpBuiltinExec]. rewrite match_here_tree_None.
    + apply IH. by eapply includes_cons.
    + apply includes_prefix in Hpre. intros Hp. apply Hpre.
      apply (prefix_of_app_long _ _ (ch "/" :: rest)).
      * rewrite length_app. cbn. lia.
      * by rewrite <- app_assoc.
Qed.

Lemma started_then_neq cb fe : started_then cb fe ≠ fe.
Proof.
  unfold started_then. destruct fe as [settled reactions js' opened].
  cbn. destruct settled; intros [= H]; apply (f_equal length) in H;
    rewrite length_app in H; cbn in H; lia.
Qed.

End MatcherFacts.



(** X2: the tree pattern has no match in a path exactly when the path
    does not contain [/griffin-notebooks/]. *)
Theorem tree_pattern_matches_iff_includes (s : jsstring) :
  RegExp.String_match s TREE_PATTERN = None ↔ includes tree_segment s = false.
Proof.
  split.
  - intros Hm. destruct (includes tree_segment s) eqn:Hi; [|done].
    apply includes_spec in Hi as (pre & post & ->). exfalso.
    clear -Hm. revert Hm. unfold RegExp.String_match.
    induction pre as [|c pre IH]; intros Hm.
    + rewrite app_nil_l in Hm.
      by rewrite (RegExpBuiltinExec_here _ _ _ (match_here_tree post)) in Hm.
    + cbn [app RegExp.RegExpBuiltinExec] in Hm.
      destruct (RegExp.match_here TREE_PATTERN _); [done|]. by apply IH.
  - apply String_match_not_included.
Qed.

(** X3: in every match of the tree pattern the first group is
    [griffin-notebooks] and the second group is the text that follows
    the matched segment up to the end of the line: it holds no line
    terminator, and what follows it in the path is nothing or starts
    with a line terminator. *)
Theorem tree_pattern_second_group_is_rest_of_line
    (s : jsstring) (a : list (option jsstring)) :
  RegExp.String_match s TREE_PATTERN = Some a →
  ∃ pre g post,
    s = pre ++ tree_segment ++ g ++ post ∧
    a = [Some (tree_segment ++ g); Some (js "griffin-notebooks"); Some g] ∧
    forallb (λ c, negb (RegExp.IsLineTerminator c)) g = true ∧
    (post = [] ∨ ∃ c post', post = c :: post' ∧ RegExp.IsLineTerminator c = true).
Proof.
  intros (pre & rest & -> & ->)%String_match_Some.
  exists pre, (line_prefix rest), (line_rest rest). split_and!.
  - by rewrite line_prefix_rest.
  - done.
  - apply line_prefix_no_terminator.
  - apply line_rest_starts_with_terminator.
Qed.

Lemma tree_pattern_second_group_is_rest_of_line_witness :
  let s := js "/griffin-notebooks/a.txt" ++ [13%N; 10%N] ++ js "b" in
  let a := [Some (js "/griffin-notebooks/a.txt"); Some (js "griffin-notebooks");
            Some (js "a.txt")] in
  RegExp.String_match s TREE_PATTERN = Some a ∧
  ∃ pre g post,
    s = pre ++ tree_segment ++ g ++ post ∧
    a = [Some (tree_segment ++ g); Some (js "griffin-notebooks"); Some g] ∧
    forallb (λ c, negb (RegExp.IsLineTerminator c)) g = true ∧
    (post = [] ∨ ∃ c post', post = c :: post' ∧ RegExp.IsLineTerminator c = true).
Proof.
  intros s a.
  assert (H : RegExp.String_match s TREE_PATTERN = Some a) by (vm_compute; reflexivity).
  split; [exact H|]. exact (tree_pattern_second_group_is_rest_of_line s a H).
Defined.

(** X4: the first occurrence of [/griffin-notebooks/] in the path
    decides: when the segment does not occur earlier, whatever stands
    before it is ignored, and the command behaves as on the path that
    starts at the segment. *)
Theorem router_tree_first_occurrence_decides
    (pre rest : jsstring) (search : option jsstring) (fe : FrontEnd) :
  includes tree_segment (pre ++ js "/griffin-notebooks") = false →
  RegExp.String_match (pre ++ tree_segment ++ rest) TREE_PATTERN
    = Some [Some (tree_segment ++ line_prefix rest); Some (js "griffin-notebooks");
            Some (line_prefix rest)] ∧
  opener.execute {| Host.path := pre ++ tree_segment ++ rest; search := search |} fe
    = opener.execute {| Host.path := tree_segment ++ rest; search := search |} fe.
Proof.
  intros Hpre.
  pose proof (String_match_first_occurrence pre rest Hpre) as Hm.
  split; [exact Hm|].
  rewrite execute_tree_prefix.
  rewrite (execute_captured _ fe (tree_match rest) (line_prefix rest)); [|done..].
  by destruct (line_prefix rest).
Qed.

Lemma router_tree_first_occurrence_decides_witness :
  let pre := js "/user/ann" in
  let rest := js "a/griffin-notebooks/b.ipynb" in
  includes tree_segment (pre ++ js "/griffin-notebooks") = false ∧
  opener.execute {| Host.path := pre ++ tree_segment ++ rest; search := None |}
    fresh_frontEnd
  = (Normal (), started_then (open_call (js "a/griffin-notebooks/b.ipynb") None)
                  fresh_frontEnd).
Proof.
  intros pre rest.
  assert (H : includes tree_segment (pre ++ js "/griffin-notebooks") = false)
    by (vm_compute; reflexivity).
  split; [exact H|].
  rewrite (proj2 (router_tree_first_occurrence_decides pre rest None fresh_frontEnd H)).
  vm_compute. reflexivity.
Defined.

(** X5: the command leaves the front end untouched and returns
    normally only when the match has no second group or an empty one:
    with a non-empty second group it either throws or registers a
    callback on [app.started]. *)
Theorem router_tree_no_action_iff_empty_group (loc : ILocation) (fe : FrontEnd) :
  opener.execute loc fe = (Normal (), fe) ↔
  (∀ a rest, RegExp.String_match (Host.path loc) TREE_PATTERN = Some a →
             a !! 2 = Some (Some rest) → rest = []).
Proof.
  split; [|apply execute_no_group].
  intros Hex a rest Hm Ha.
  destruct (execute_cases loc fe) as [[_ Hnone]|(a' & rest' & Hm' & Ha' & Hne & Hex')].
  - by eapply Hnone.
  - exfalso. rewrite Hex in Hex'.
    destruct (URI.decodeURIComponent rest') as [file|e]; [|done].
    injection Hex' as Hfe. by eapply started_then_neq.
Qed.

(** ** Decoding the captured remainder *)

Section DecodeFacts.
Import URI.

Lemma bind_Normal_app (x : completion jsstring) (pre a : jsstring) :
  (R ←! (b' ←! x; Normal (a ++ b')); Normal (pre ++ R))
  = (b' ←! x; Normal ((pre ++ a) ++ b')).
Proof. destruct x; cbn; [by rewrite app_assoc|done]. Qed.

Lemma Decode_app_aux n :
  ∀ a, length a ≤ n → ∀ p a' b, Decode a p = Normal a' →
    Decode (a ++ b) p = (b' ←! Decode b None; Normal (a' ++ b')).
Proof.
  induction n as [|n IH]; intros a Hlen p a' b Ha.
  { destruct a; [|cbn in Hlen; lia]. cbn in Ha. destruct p; [done|].
    injection Ha as <-. cbn [app]. by destruct (Decode b None). }
  destruct a as [|C t].
  { cbn in Ha. destruct p; [done|].
    injection Ha as <-. cbn [app]. by destruct (Decode b None). }
  cbn [length] in Hlen. cbn [app Decode] in Ha |- *.
  destruct (N.eqb C (ch "%")).
  - destruct t as [|h1 [|h2 t']]; [done..|]. cbn [app length] in Hlen |- *.
    assert (Ht' : length t' ≤ n) by lia.
    destruct (ParseHexOctet h1 h2) as [B|]; [|done].
    destruct p as [[j octets]|].
    + destruct j as [|[|j]].
      * by apply IH.
      * destruct (utf8_code_point (octets ++ [B])) as [V|]; [|done].
        destruct (Decode t' None) as [R|] eqn:HR; [|done].
        cbn in Ha. injection Ha as <-.
        rewrite (IH t' Ht' None R b HR). apply bind_Normal_app.
      * by apply IH.
    + destruct (leading_ones B) as [|[|[|[|[|k]]]]]; try done; try by apply IH.
      destruct (Decode t' None) as [R|] eqn:HR; [|done].
      cbn in Ha. injection Ha as <-.
      rewrite (IH t' Ht' None R b HR).
      apply (bind_Normal_app _ [B]).
  - destruct p; [done|].
    destruct (Decode t None) as [R|] eqn:HR; [|done].
    cbn in Ha. injection Ha as <-.
    rewrite (IH t ltac:(lia) None R b HR).
    apply (bind_Normal_app _ [C]).
Qed.

Lemma hex_digit_percent : hex_digit (ch "%") = None.
Proof. reflexivity. Qed.

Lemma ParseHexOctet_percent_l h : ParseHexOctet (ch "%") h = None.
Proof. reflexivity. Qed.

Lemma ParseHexOctet_percent_r h : ParseHexOctet h (ch "%") = None.
Proof. unfold ParseHexOctet. by destruct (hex_digit h). Qed.

Lemma Decode_truncated_escape_aux n :
  ∀ s, length s ≤ n → ∀ tail p, length tail < 2 →
    Decode (s ++ ch "%" :: tail) p = Throw URIError.
Proof.
  induction n as [|n IH]; intros s Hlen tail p Htail.
  { destruct s; [|cbn in Hlen; lia]. cbn [app Decode]. rewrite N.eqb_refl.
    destruct tail as [|h [|h' tail]]; [done| |cbn in Htail; lia].
    by rewrite ParseHexOctet_percent_l || done. }
  destruct s as [|C t].
  { cbn [app Decode]. rewrite N.eqb_refl.
    destruct tail as [|h [|h' tail]]; [done|done|cbn in Htail; lia]. }
  cbn [length] in Hlen. cbn [app Decode].
  destruct (N.eqb C (ch "%")).
  - destruct t as [|h1 [|h2 t']]; cbn [app length] in Hlen |- *.
    + destruct tail as [|h [|h' tail]]; [done| |cbn in Htail; lia].
      by rewrite ParseHexOctet_percent_l.
    + by rewrite ParseHexOctet_percent_r.
    + assert (Ht' : length t' ≤ n) by lia.
      destruct (ParseHexOctet h1 h2) as [B|]; [|done].
      destruct p as [[j octets]|].
      * destruct j as [|[|j]]; [by apply IH| |by apply IH].
        destruct (utf8_code_point (octets ++ [B])) as [V|]; [|done].
        by rewrite IH.
      * destruct (leading_ones B) as [|[|[|[|[|k]]]]]; try done; try by apply IH.
        by rewrite IH.
  - destruct p; [done|]. by rewrite IH by lia.
Qed.

Lemma length_UTF16EncodeCodePoint V : length (UTF16EncodeCodePoint V) ≤ 2.
Proof. unfold UTF16EncodeCodePoint. destruct (N.leb V 65535); cbn; lia. Qed.

(** A successful decoding is shorter than its input as soon as an
    escape is read. *)
Lemma Decode_length_aux n :
  ∀ s, length s ≤ n → ∀ p r, Decode s p = Normal r →
    length r ≤ length s ∧
    ((is_Some p ∨ ch "%" ∈ s) → length r < length s).
Proof.
  induction n as [|n IH]; intros s Hlen p r Hs.
  { destruct s; [|cbn in Hlen; lia]. cbn in Hs. destruct p; [done|].
    injection Hs as <-. split; [done|]. intros [[? [=]]|Hin]. by apply elem_of_nil in Hin. }
  destruct s as [|C t].
  { cbn in Hs. destruct p; [done|].
    injection Hs as <-. split; [done|]. intros [[? [=]]|Hin]. by apply elem_of_nil in Hin. }
  cbn [length] in Hlen. cbn [Decode] in Hs.
  destruct (N.eqb_spec C (ch "%")) as [HC|HC].
  - subst C. destruct t as [|h1 [|h2 t']]; [done..|]. cbn [length] in Hlen |- *.
    assert (Ht' : length t' ≤ n) by lia.
    destruct (ParseHexOctet h1 h2) as [B|]; [|done].
    destruct p as [[j octets]|].
    + destruct j as [|[|j]].
      * apply IH in Hs as [_ Hs]; [|done]. split; [|intros _].
        all: specialize (Hs ltac:(eauto)); lia.
      * destruct (utf8_code_point (octets ++ [B])) as [V|]; [|done].
        destruct (Decode t' None) as [R|] eqn:HR; [|done].
        cbn in Hs. injection Hs as <-.
        apply IH in HR as [HR _]; [|done].
        pose proof (length_UTF16EncodeCodePoint V).
        rewrite length_app. split; [|intros _]; lia.
      * apply IH in Hs as [_ Hs]; [|done]. split; [|intros _].
        all: specialize (Hs ltac:(eauto)); lia.
    + destruct (leading_ones B) as [|[|[|[|[|k]]]]]; try done.
      * destruct (Decode t' None) as [R|] eqn:HR; [|done].
        cbn in Hs. injection Hs as <-.
        apply IH in HR as [HR _]; [|done]. cbn [length].
        split; [|intros _]; lia.
      * apply IH in Hs as [_ Hs]; [|done]. split; [|intros _].
        all: specialize (Hs ltac:(eauto)); lia.
      * apply IH in Hs as [_ Hs]; [|done]. split; [|intros _].
        all: specialize (Hs ltac:(eauto)); lia.
      * apply IH in Hs as [_ Hs]; [|done]. split; [|intros _].
        all: specialize (Hs ltac:(eauto)); lia.
  - destruct p; [done|].
    destruct (Decode t None) as [R|] eqn:HR; [|done].
    cbn in Hs. injection Hs as <-.
    apply IH in HR as [HR1 HR2]; [|lia]. cbn [length]. split; [lia|].
    intros [[? [=]]|Hin]. apply elem_of_cons in Hin as [Heq|Hin]; [done|].
    specialize (HR2 ltac:(eauto)). lia.
Qed.

Lemma UTF16EncodeCodePoint_nonempty V : UTF16EncodeCodePoint V ≠ [].
Proof. unfold UTF16EncodeCodePoint. by destruct (N.leb V 65535). Qed.

(** Decoding something gives something. *)
Lemma Decode_nonempty_aux n :
  ∀ s, length s ≤ n → ∀ p r, Decode s p = Normal r →
    (is_Some p ∨ s ≠ []) → r ≠ [].
Proof.
  induction n as [|n IH]; intros s Hlen p r Hs Hne.
  { destruct s; [|cbn in Hlen; lia]. cbn in Hs. destruct p; [done|].
    by destruct Hne as [[? [=]]|?]. }
  destruct s as [|C t].
  { cbn in Hs. destruct p; [done|]. by destruct Hne as [[? [=]]|?]. }
  clear Hne. cbn [length] in Hlen. cbn [Decode] in Hs.
  destruct (N.eqb C (ch "%")).
  - destruct t as [|h1 [|h2 t']]; [done..|]. cbn [length] in Hlen.
    assert (Ht' : length t' ≤ n) by lia.
    destruct (ParseHexOctet h1 h2) as [B|]; [|done].
    destruct p as [[j octets]|].
    + destruct j as [|[|j]].
      * eapply IH; [exact Ht'|exact Hs|eauto].
      * destruct (utf8_code_point (octets ++ [B])) as [V|]; [|done].
        destruct (Decode t' None) as [R|]; [|done].
        cbn in Hs. injection Hs as <-.
        intros [HV _]%app_eq_nil. by eapply UTF16EncodeCodePoint_nonempty.
      * eapply IH; [exact Ht'|exact Hs|eauto].
    + destruct (leading_ones B) as [|[|[|[|[|k]]]]]; try done;
        try (eapply IH; [exact Ht'|exact Hs|eauto]).
      destruct (Decode t' None) as [R|]; [|done].
      cbn in Hs. by injection Hs as <-.
  - destruct p; [done|].
    destruct (Decode t None) as [R|]; [|done].
    cbn in Hs. by injection Hs as <-.
Qed.

End DecodeFacts.

(** X6: decoding distributes over concatenation after a piece that
    decodes: the result is the decoded piece followed by the decoding
    of the rest, and it throws exactly when the rest throws. *)
Theorem decodeURIComponent_app (a b a' : jsstring) :
  URI.decodeURIComponent a = Normal a' →
  URI.decodeURIComponent (a ++ b) =
    match URI.decodeURIComponent b with
    | Normal b' => Normal (a' ++ b')
    | Throw e => Throw e
    end.
Proof.
  unfold URI.decodeURIComponent. intros Ha.
  rewrite (Decode_app_aux (length a) a (le_n _) None a' b Ha).
  by destruct (URI.Decode b None).
Qed.

Lemma decodeURIComponent_app_witness :
  URI.decodeURIComponent (js "dir%2F") = Normal (js "dir/") ∧
  URI.decodeURIComponent (js "dir%2F" ++ js "f%C3%A9.txt")
    = Normal (js "dir/" ++ js "f" ++ [233%N] ++ js ".txt").
Proof.
  assert (H : URI.decodeURIComponent (js "dir%2F") = Normal (js "dir/"))
    by (vm_compute; reflexivity).
  split; [exact H|].
  rewrite (decodeURIComponent_app (js "dir%2F") (js "f%C3%A9.txt") (js "dir/") H).
  vm_compute. reflexivity.
Defined.

(** X7: a matched path whose remainder ends in a truncated escape, a
    [%] followed by fewer than two characters, makes the command throw
    a URIError whatever stands before it; no callback is registered. *)
Theorem router_tree_truncated_escape_throws
    (rest tail : jsstring) (search : option jsstring) (fe : FrontEnd) :
  forallb (λ c, negb (RegExp.IsLineTerminator c)) (rest ++ ch "%" :: tail) = true →
  length tail < 2 →
  opener.execute
    {| Host.path := tree_segment ++ rest ++ ch "%" :: tail; search := search |} fe
  = (Throw URIError, fe).
Proof.
  intros Hline Htail. rewrite execute_tree_prefix, (line_prefix_id _ Hline).
  unfold URI.decodeURIComponent.
  rewrite (Decode_truncated_escape_aux (length rest) rest (le_n _) tail None Htail).
  by destruct rest.
Qed.

Lemma router_tree_truncated_escape_throws_witness :
  let rest := js "report%20" in
  let tail := js "2" in
  forallb (λ c, negb (RegExp.IsLineTerminator c)) (rest ++ ch "%" :: tail) = true ∧
  length tail < 2 ∧
  opener.execute {| Host.path := js "/griffin-notebooks/report%20%2"; search := None |}
    fresh_frontEnd
  = (Throw URIError, fresh_frontEnd).
Proof.
  intros rest tail.
  assert (H1 : forallb (λ c, negb (RegExp.IsLineTerminator c))
                 (rest ++ ch "%" :: tail) = true) by (vm_compute; reflexivity).
  assert (H2 : length tail < 2) by (vm_compute; lia).
  split_and!; [exact H1|exact H2|].
  exact (router_tree_truncated_escape_throws rest tail None fresh_frontEnd H1 H2).
Defined.

(** X8: a decoded string is never longer than the encoded one, and
    it is the encoded string itself exactly when that string has no
    [%]. *)
Theorem decodeURIComponent_identity_iff_no_percent (s r : jsstring) :
  URI.decodeURIComponent s = Normal r →
  length r ≤ length s ∧ (r = s ↔ ch "%" ∉ s).
Proof.
  unfold URI.decodeURIComponent. intros Hs.
  destruct (Decode_length_aux (length s) s (le_n _) None r Hs) as [Hle Hlt].
  split; [done|]. split.
  - intros -> Hin. specialize (Hlt (or_intror Hin)). lia.
  - intros Hnot. rewrite (Decode_no_percent s Hnot) in Hs. by injection Hs.
Qed.

Lemma decodeURIComponent_identity_iff_no_percent_witness :
  URI.decodeURIComponent (js "a%20b") = Normal (js "a b") ∧
  length (js "a b") ≤ length (js "a%20b") ∧
  (js "a b" = js "a%20b" ↔ ch "%" ∉ js "a%20b").
Proof.
  assert (H : URI.decodeURIComponent (js "a%20b") = Normal (js "a b"))
    by (vm_compute; reflexivity).
  split; [exact H|].
  exact (decodeURIComponent_identity_iff_no_percent (js "a%20b") (js "a b") H).
Defined.

(** ** The deferred open requests *)

Section FrontEndFacts.

Lemma execute_state loc fe :
  (opener.execute loc fe).2 = fe ∨
  ∃ file, file ≠ [] ∧
    (opener.execute loc fe).2 = started_then (open_call file (search loc)) fe.
Proof.
  destruct (execute_cases loc fe) as [[-> _]|(a & rest & _ & _ & Hne & ->)]; [by left|].
  destruct (URI.decodeURIComponent rest) as [file|] eqn:Hd; [right|by left].
  exists file. split; [|done].
  eapply (Decode_nonempty_aux (length rest) rest (le_n _) None); [exact Hd|eauto].
Qed.

Lemma execute_decodable rest id search fe :
  rest ≠ [] →
  forallb (λ c, negb (RegExp.IsLineTerminator c)) rest = true →
  URI.decodeURIComponent rest = Normal id →
  opener.execute {| Host.path := tree_segment ++ rest; search := search |} fe
  = (Normal (), started_then (open_call id search) fe).
Proof.
  intros Hne Hline Hid.
  rewrite execute_tree_prefix, (line_prefix_id rest Hline), Hid. by destruct rest.
Qed.

Lemma started_then_pending cb fe :
  promise_consistent fe →
  pending (started_then cb fe) = pending fe ++ [cb] ∧
  promise_consistent (started_then cb fe) ∧
  docManager_opened (started_then cb fe) = docManager_opened fe.
Proof.
  unfold promise_consistent, pending, started_then. intros Hc.
  destruct (started_settled fe) eqn:Hs; cbn.
  - rewrite (Hc eq_refl). by rewrite !app_nil_r.
  - by rewrite app_assoc.
Qed.

Lemma resolve_run_opened fe :
  promise_consistent fe →
  docManager_opened (run_jobs (resolve_started fe))
  = docManager_opened fe ++ pending fe.
Proof.
  unfold promise_consistent, pending, resolve_started, run_jobs. intros Hc.
  destruct (started_settled fe) eqn:Hs; cbn; [|done].
  rewrite (Hc eq_refl). by rewrite app_nil_r.
Qed.

End FrontEndFacts.

(** X9: the command never calls the document manager itself and
    never changes the state of [app.started]; all it can do to the
    front end is to add one callback behind those already waiting.
    The call of that callback has a non-empty path, the view kind
    resolved from the search string, no kernel, and the reference
    ['_noref']. *)
Theorem router_tree_only_adds_one_callback (loc : ILocation) (fe : FrontEnd) :
  let fe' := (opener.execute loc fe).2 in
  docManager_opened fe' = docManager_opened fe ∧
  started_settled fe' = started_settled fe ∧
  ∃ added, length added ≤ 1 ∧
    jobs fe' = jobs fe ++ (if started_settled fe then added else []) ∧
    started_reactions fe'
      = started_reactions fe ++ (if started_settled fe then [] else added) ∧
    Forall (λ cb, open_path cb ≠ [] ∧
                  open_widgetName cb = opener.factory (search loc) ∧
                  open_kernel cb = None ∧
                  open_ref cb = js "_noref") added.
Proof.
  cbv zeta. destruct (execute_state loc fe) as [->|(file & Hfile & ->)].
  - split_and!; [done..|]. exists []. split; [cbn; lia|].
    destruct (started_settled fe); by rewrite !app_nil_r.
  - unfold started_then. destruct (started_settled fe) eqn:Hs; cbn.
    + split_and!; [done..|]. exists [open_call file (search loc)].
      rewrite app_nil_r. split_and!; [done..|]. by apply Forall_singleton.
    + split_and!; [done..|]. exists [open_call file (search loc)].
      rewrite app_nil_r. split_and!; [done..|]. by apply Forall_singleton.
Qed.

(** X10: as long as [app.started] is not fulfilled, no document is
    opened: from a front end with a pending [app.started] and an empty
    job queue, no sequence of command executions and job runs makes
    the document manager receive a call. *)
Theorem no_open_before_started (events : list frontEnd_event) (fe : FrontEnd) :
  started_settled fe = false →
  jobs fe = [] →
  Forall (λ e, e ≠ ResolveStarted) events →
  docManager_opened (foldl frontEnd_step fe events) = docManager_opened fe.
Proof.
  revert fe. induction events as [|e events IH]; intros fe Hs Hj Hev; [done|].
  apply Forall_cons in Hev as [He Hev]. cbn [foldl].
  assert (Hstep : started_settled (frontEnd_step fe e) = false ∧
                  jobs (frontEnd_step fe e) = [] ∧
                  docManager_opened (frontEnd_step fe e) = docManager_opened fe).
  { destruct e as [loc| |]; cbn [frontEnd_step]; [| |done].
    - destruct (execute_state loc fe) as [->|(file & _ & ->)]; [done|].
      unfold started_then. by rewrite Hs.
    - unfold run_jobs. cbn. by rewrite Hj, app_nil_r. }
  destruct Hstep as (Hs' & Hj' & Ho'). rewrite IH by done. exact Ho'.
Qed.

Lemma no_open_before_started_witness :
  let loc := {| Host.path := js "/griffin-notebooks/a.ipynb"; search := None |} in
  let events := [Execute loc; RunJobs; Execute loc; RunJobs] in
  (started_settled fresh_frontEnd = false ∧ jobs fresh_frontEnd = [] ∧
   Forall (λ e, e ≠ ResolveStarted) events) ∧
  docManager_opened (foldl frontEnd_step fresh_frontEnd events) = [].
Proof.
  intros loc events.
  assert (H : Forall (λ e, e ≠ ResolveStarted) events)
    by (repeat constructor; discriminate).
  split; [by split_and!|].
  exact (no_open_before_started events fresh_frontEnd eq_refl eq_refl H).
Defined.

(** X11: documents are opened in the order in which their routes were
    executed: after the commands have run on decodable paths, and
    [app.started] is fulfilled and the jobs have run, the document
    manager has received the calls that were already waiting and then
    one call per route, in that order. *)
Theorem opens_in_execution_order
    (requests : list (jsstring * jsstring * option jsstring)) (fe : FrontEnd) :
  promise_consistent fe →
  Forall (λ '(rest, id, _),
            rest ≠ [] ∧
            forallb (λ c, negb (RegExp.IsLineTerminator c)) rest = true ∧
            URI.decodeURIComponent rest = Normal id) requests →
  let events :=
    (λ '(rest, _, search),
       Execute {| Host.path := tree_segment ++ rest; search := search |})
    <$> requests in
  docManager_opened (run_jobs (resolve_started (foldl frontEnd_step fe events)))
  = docManager_opened fe ++ pending fe
    ++ ((λ '(_, id, search), open_call id search) <$> requests).
Proof.
  cbv zeta. revert fe.
  induction requests as [|[[rest id] search] requests IH]; intros fe Hc Hreq.
  - cbn. rewrite app_nil_r. by apply resolve_run_opened.
  - apply Forall_cons in Hreq as [(Hne & Hline & Hid) Hreq].
    rewrite fmap_cons. cbn [foldl frontEnd_step].
    rewrite (execute_decodable rest id search fe Hne Hline Hid). cbn [snd].
    destruct (started_then_pending (open_call id search) fe Hc) as (Hp & Hc' & Ho).
    rewrite IH by done. rewrite Ho, Hp, fmap_cons.
    by rewrite <- !app_assoc.
Qed.

Lemma opens_in_execution_order_witness :
  let requests :=
    [(js "b%20c.ipynb", js "b c.ipynb", Some (js "?factory=Notebook"));
     (js "a.txt", js "a.txt", None)] in
  (promise_consistent fresh_frontEnd ∧
   Forall (λ '(rest, id, _),
             rest ≠ [] ∧
             forallb (λ c, negb (RegExp.IsLineTerminator c)) rest = true ∧
             URI.decodeURIComponent rest = Normal id) requests) ∧
  docManager_opened (run_jobs (resolve_started (foldl frontEnd_step fresh_frontEnd
     [Execute {| Host.path := js "/griffin-notebooks/b%20c.ipynb";
                 search := Some (js "?factory=Notebook") |};
      Execute {| Host.path := js "/griffin-notebooks/a.txt"; search := None |}])))
  = [open_call (js "b c.ipynb") (Some (js "?factory=Notebook"));
     open_call (js "a.txt") None].
Proof.
  intros requests.
  assert (Hc : promise_consistent fresh_frontEnd) by (intros [=]).
  assert (Hr : Forall (λ '(rest, id, _),
             rest ≠ [] ∧
             forallb (λ c, negb (RegExp.IsLineTerminator c)) rest = true ∧
             URI.decodeURIComponent rest = Normal id) requests).
  { repeat constructor; try (vm_compute; discriminate). }
  split; [by split|].
  exact (opens_in_execution_order requests fresh_frontEnd Hc Hr).
Defined.

(** ** More on the query string *)

Section QueryFacts.
Import URLSearchParams.
Local Open Scope N_scope.

Lemma unescaped_inv c :
  unescaped c = true →
  (c <? 128) = true ∧ (c =? ch "&") = false ∧ (c =? ch "%") = false.
Proof. unfold unescaped. rewrite !andb_true_iff, !negb_true_iff. tauto. Qed.

Lemma plain_unescaped l : forallb plain l = true → forallb unescaped l = true.
Proof.
  induction l as [|c l IH]; [done|]. cbn [forallb].
  intros [Hc Hl]%andb_true_iff. rewrite IH by done.
  apply plain_inv in Hc as (H1 & H2 & _ & H4). unfold unescaped.
  by rewrite H1, H2, H4.
Qed.

Lemma unescaped_ascii l :
  forallb unescaped l = true → forallb (λ c, c <? 128) l = true.
Proof.
  induction l as [|c l IH]; [done|]. cbn [forallb].
  intros [Hc Hl]%andb_true_iff. apply unescaped_inv in Hc as (-> & _).
  by rewrite IH.
Qed.

Lemma unescaped_no_amp l :
  forallb unescaped l = true → forallb (λ c, negb (c =? ch "&")) l = true.
Proof.
  induction l as [|c l IH]; [done|]. cbn [forallb].
  intros [Hc Hl]%andb_true_iff. apply unescaped_inv in Hc as (_ & -> & _).
  by rewrite IH.
Qed.

(** A value without escapes is decoded by turning each [+] into a
    space. *)
Lemma decode_unescaped l :
  forallb unescaped l = true →
  of_USVString (utf8_decode_without_BOM (percent_decode (plus_to_space l)))
  = plus_to_space l.
Proof.
  intros Hl.
  assert (Hp : percent_decode (plus_to_space l) = plus_to_space l).
  { revert Hl. unfold plus_to_space.
    induction l as [|c l IH]; [done|]. cbn [forallb].
    intros [Hc Hl]%andb_true_iff. apply unescaped_inv in Hc as (_ & _ & Hc).
    rewrite fmap_cons. cbn [percent_decode].
    destruct (c =? ch "+"); [by rewrite IH|]. by rewrite Hc, IH. }
  assert (Ha : forallb (λ c, c <? 128) (plus_to_space l) = true).
  { clear Hp. revert Hl. unfold plus_to_space.
    induction l as [|c l IH]; [done|]. cbn [forallb].
    intros [Hc Hl]%andb_true_iff. apply unescaped_inv in Hc as (Hc & _).
    rewrite fmap_cons. cbn [forallb]. rewrite IH by done.
    destruct (c =? ch "+"); [done|]. by rewrite Hc. }
  rewrite Hp, utf8_decode_ascii by done. by apply of_USVString_ascii.
Qed.

Lemma parse_tuple_key_value key value :
  forallb plain key = true →
  forallb (λ c, negb (c =? ch "=")) key = true →
  forallb unescaped value = true →
  parse_tuple (key ++ ch "=" :: value) = (key, plus_to_space value).
Proof.
  intros Hk Heq Hv. unfold parse_tuple. rewrite break_on_app by done.
  cbn [default id].
  rewrite (decode_unescaped key) by by apply plain_unescaped.
  rewrite (decode_unescaped value) by done.
  by rewrite (plus_to_space_plain key).
Qed.

Lemma ToUSVString_question t : ToUSVString (ch "?" :: t) = ch "?" :: ToUSVString t.
Proof. reflexivity. Qed.

Lemma new_question t : new (ch "?" :: t) = urlencoded_parse (utf8_encode (ToUSVString t)).
Proof. unfold new. rewrite ToUSVString_question. cbn. done. Qed.

(** The parameters of [?<segment>&<rest>] are the tuple of the
    segment, when it is not empty, and then the parameters of
    [?<rest>]. *)
Lemma new_segment A t :
  forallb unescaped A = true →
  new (ch "?" :: A ++ ch "&" :: t)
  = (if decide (A = []) then [] else [parse_tuple A]) ++ new (ch "?" :: t).
Proof.
  intros HA. rewrite !new_question.
  rewrite ToUSVString_ascii_app by by apply unescaped_ascii.
  change (ToUSVString (ch "&" :: t)) with (ch "&" :: ToUSVString t).
  rewrite utf8_encode_ascii_app by by apply unescaped_ascii.
  change (utf8_encode (ch "&" :: ToUSVString t))
    with (ch "&" :: utf8_encode (ToUSVString t)).
  unfold urlencoded_parse. rewrite split_on_app by by apply unescaped_no_amp.
  case_decide as HAe.
  - subst A. by rewrite filter_cons_False by (intros H; by apply H).
  - by rewrite filter_cons_True, fmap_cons by done.
Qed.

Lemma new_last_segment A :
  forallb unescaped A = true →
  new (ch "?" :: A) = if decide (A = []) then [] else [parse_tuple A].
Proof.
  intros HA. rewrite new_question.
  rewrite <- (app_nil_r A) at 1.
  rewrite ToUSVString_ascii_app by by apply unescaped_ascii.
  cbn [ToUSVString]. rewrite utf8_encode_ascii_app by by apply unescaped_ascii.
  rewrite app_nil_r.
  unfold urlencoded_parse. rewrite split_on_no_sep by by apply unescaped_no_amp.
  case_decide as HAe.
  - subst A. by rewrite filter_cons_False by (intros H; by apply H).
  - by rewrite filter_cons_True by done.
Qed.

Lemma get_skip name k v params :
  k ≠ name → get ((k, v) :: params) name = get params name.
Proof.
  intros Hk. unfold get. cbn [list_find]. rewrite decide_False by done.
  by destruct (list_find _ params) as [[i p]|].
Qed.

Lemma head_ToUSVString q :
  head q ≠ Some (ch "?") → head (ToUSVString q) ≠ Some (ch "?").
Proof.
  destruct q as [|c t]; [done|]. cbn [head ToUSVString]. intros Hc.
  unfold is_high_surrogate, is_low_surrogate.
  destruct (N.leb_spec 55296 c) as [L1|L1], (N.leb_spec c 56319) as [L2|L2];
    cbn [andb];
    [destruct t as [|d t]; [|destruct ((56320 <=? d) && (d <=? 57343))]|..];
    try (destruct (N.leb_spec 56320 c) as [L3|L3],
           (N.leb_spec c 57343) as [L4|L4]; cbn [andb]);
    cbn [head]; intros Heq; apply (inj Some) in Heq;
    first [ by apply Hc; rewrite Heq | change (ch "?") with 63 in Heq; lia ].
Qed.

End QueryFacts.

(** X12: parameters in front of [factory] that have another name are
    passed over, and so are empty segments between two [&]: the query
    string [?<key>=<value>&<rest>], with a key other than [factory],
    resolves to the same view kind as [?<rest>]. *)
Theorem factory_skips_other_parameters (key value t : jsstring) :
  forallb plain key = true →
  forallb (λ c, negb (c =? ch "=")%N) key = true →
  key ≠ js "factory" →
  forallb unescaped value = true →
  opener.factory (Some (ch "?" :: key ++ ch "=" :: value ++ ch "&" :: t))
    = opener.factory (Some (ch "?" :: t)) ∧
  opener.factory (Some (ch "?" :: ch "&" :: t)) = opener.factory (Some (ch "?" :: t)).
Proof.
  intros Hk Heq Hne Hv. unfold opener.factory. split.
  - assert (HA : forallb unescaped (key ++ ch "=" :: value) = true).
    { rewrite forallb_app. cbn [forallb].
      by rewrite (plain_unescaped key), Hv. }
    change (key ++ ch "=" :: value ++ ch "&" :: t)
      with (key ++ (ch "=" :: value) ++ ch "&" :: t).
    rewrite app_assoc, new_segment by done.
    rewrite decide_False by (by destruct key).
    rewrite parse_tuple_key_value by done. cbn [app].
    by rewrite get_skip.
  - pose proof (new_segment [] t eq_refl) as H.
    rewrite decide_True in H by done. cbn [app] in H. by rewrite H.
Qed.

Lemma factory_skips_other_parameters_witness :
  (forallb plain (js "reset") = true ∧
   forallb (λ c, negb (c =? ch "=")%N) (js "reset") = true ∧
   js "reset" ≠ js "factory" ∧
   forallb unescaped (js "1") = true) ∧
  opener.factory (Some (js "?reset=1&factory=Editor")) = js "Editor".
Proof.
  assert (H1 : forallb plain (js "reset") = true) by (vm_compute; reflexivity).
  assert (H2 : forallb (λ c, negb (c =? ch "=")%N) (js "reset") = true)
    by (vm_compute; reflexivity).
  assert (H3 : js "reset" ≠ js "factory") by (vm_compute; discriminate).
  assert (H4 : forallb unescaped (js "1") = true) by (vm_compute; reflexivity).
  split; [by split_and!|].
  change (js "?reset=1&factory=Editor")
    with (ch "?" :: js "reset" ++ ch "=" :: js "1" ++ ch "&" :: js "factory=Editor").
  rewrite (proj1 (factory_skips_other_parameters
                    (js "reset") (js "1") (js "factory=Editor") H1 H2 H3 H4)).
  vm_compute. reflexivity.
Defined.

(** X13: a [factory] key without [=] counts as present with an empty
    value: the query string [?factory], alone or followed by [&] and
    more parameters, resolves to the empty string and not to
    ['default']. *)
Theorem factory_bare_key_is_empty (tail : jsstring) :
  (tail = [] ∨ ∃ t, tail = ch "&" :: t) →
  opener.factory (Some (js "?factory" ++ tail)) = [] ∧
  opener.factory (Some (js "?factory" ++ tail)) ≠ js "default".
Proof.
  intros Ht.
  assert (Hp : URLSearchParams.parse_tuple (js "factory") = (js "factory", []))
    by (vm_compute; reflexivity).
  assert (H : opener.factory (Some (js "?factory" ++ tail)) = []).
  { unfold opener.factory.
    change (js "?factory" ++ tail) with (ch "?" :: js "factory" ++ tail).
    destruct Ht as [->|[t ->]].
    - rewrite app_nil_r, new_last_segment by reflexivity.
      rewrite decide_False by done. by rewrite Hp, get_first.
    - rewrite new_segment by reflexivity.
      rewrite decide_False by done. cbn [app]. by rewrite Hp, get_first. }
  rewrite H. split; [done|]. vm_compute. discriminate.
Qed.

Lemma factory_bare_key_is_empty_witness :
  (js "&a=b" = [] ∨ ∃ t, js "&a=b" = ch "&" :: t) ∧
  opener.factory (Some (js "?factory&a=b")) = [].
Proof.
  assert (H : js "&a=b" = [] ∨ ∃ t, js "&a=b" = ch "&" :: t).
  { right. by exists (js "a=b"). }
  split; [exact H|]. exact (proj1 (factory_bare_key_is_empty (js "&a=b") H)).
Defined.

(** X14: the question mark in front of the search string is optional:
    a search string that does not itself start with [?] has the same
    parameters, and resolves to the same view kind, with and without
    a [?] in front of it. *)
Theorem search_question_mark_optional (q : jsstring) :
  head q ≠ Some (ch "?") →
  URLSearchParams.new (ch "?" :: q) = URLSearchParams.new q ∧
  opener.factory (Some (ch "?" :: q)) = opener.factory (Some q).
Proof.
  intros Hq.
  assert (H : URLSearchParams.new (ch "?" :: q) = URLSearchParams.new q).
  { rewrite new_question. unfold URLSearchParams.new.
    pose proof (head_ToUSVString q Hq) as Hh.
    destruct (URLSearchParams.ToUSVString q) as [|c u]; [done|].
    destruct (N.eqb_spec c (ch "?")) as [Hc|Hc]; [|done].
    exfalso. apply Hh. cbn [head]. by rewrite Hc. }
  split; [exact H|]. unfold opener.factory. by rewrite H.
Qed.

Lemma search_question_mark_optional_witness :
  head (js "factory=Notebook") ≠ Some (ch "?") ∧
  opener.factory (Some (js "factory=Notebook")) = js "Notebook".
Proof.
  assert (H : head (js "factory=Notebook") ≠ Some (ch "?"))
    by (vm_compute; discriminate).
  split; [exact H|].
  rewrite <- (proj2 (search_question_mark_optional (js "factory=Notebook") H)).
  vm_compute. reflexivity.
Defined.

(** ** The first [factory] parameter *)

Section FirstFactoryFacts.
Import URLSearchParams.

Lemma plain_parameter_inv p :
  plain_parameter p = true →
  forallb plain p.1 = true ∧
  forallb (λ c, negb (c =? ch "=")%N) p.1 = true ∧
  forallb unescaped p.2 = true.
Proof. unfold plain_parameter. rewrite !andb_true_iff. tauto. Qed.

Lemma plain_parameter_segment p :
  plain_parameter p = true →
  forallb unescaped (p.1 ++ ch "=" :: p.2) = true ∧
  p.1 ++ ch "=" :: p.2 ≠ [] ∧
  parse_tuple (p.1 ++ ch "=" :: p.2) = (p.1, plus_to_space p.2).
Proof.
  intros (Hk & Heq & Hv)%plain_parameter_inv. split_and!.
  - rewrite forallb_app. cbn [forallb]. by rewrite (plain_unescaped p.1), Hv.
  - by destruct p.1.
  - by apply parse_tuple_key_value.
Qed.

(** The parser reads a query string of plain parameters back to the
    parameters, with each [+] of a value as a space. *)
Lemma new_query_string ps :
  forallb plain_parameter ps = true →
  new (ch "?" :: query_string ps) = (λ p, (p.1, plus_to_space p.2)) <$> ps.
Proof.
  induction ps as [|p ps IH]; [done|]. cbn [forallb].
  intros [Hp Hps]%andb_true_iff.
  destruct (plain_parameter_segment p Hp) as (Hu & Hne & Hparse).
  cbn [query_string]. destruct ps as [|p' ps].
  - rewrite new_last_segment by done.
    rewrite decide_False by done. by rewrite Hparse.
  - change (p.1 ++ ch "=" :: p.2 ++ ch "&" :: query_string (p' :: ps))
      with (p.1 ++ (ch "=" :: p.2) ++ ch "&" :: query_string (p' :: ps)).
    rewrite app_assoc, new_segment by done.
    rewrite decide_False by done. rewrite Hparse, IH by done.
    by rewrite fmap_cons.
Qed.

Lemma get_skip_all name l1 l2 :
  Forall (λ p, p.1 ≠ name) l1 → get (l1 ++ l2) name = get l2 name.
Proof.
  induction 1 as [|[k v] l1 Hk Hl1 IH]; [done|].
  cbn [app]. by rewrite get_skip.
Qed.

Lemma get_none name l :
  Forall (λ p, p.1 ≠ name) l → get l name = None.
Proof.
  intros H. rewrite <- (app_nil_r l). by rewrite get_skip_all.
Qed.

Lemma Forall_decoded_names name (ps : list (jsstring * jsstring)) :
  Forall (λ p, p.1 ≠ name) ps →
  Forall (λ p, p.1 ≠ name) ((λ p, (p.1, plus_to_space p.2)) <$> ps).
Proof. intros H. apply Forall_fmap. by eapply Forall_impl. Qed.

End FirstFactoryFacts.

(** C10, as it is stated, fails: [get] returns the value of the first
    parameter named [factory], so a query string that holds the
    [factory] key with an empty value after an earlier [factory=a]
    resolves to [a] and not to the empty string. *)
Lemma factory_later_empty_value_ignored :
  let q := js "?factory=a&factory=" in
  includes (js "factory=") q = true ∧
  URLSearchParams.new q = [(js "factory", js "a"); (js "factory", [])] ∧
  opener.factory (Some q) = js "a" ∧
  js "a" ≠ [].
Proof.
  cbv zeta. split_and!.
  - vm_compute. reflexivity.
  - vm_compute. reflexivity.
  - vm_compute. reflexivity.
  - vm_compute. discriminate.
Qed.

(** C10, amended: for every query string in which the first parameter
    named [factory] has an empty value, the resolved document-view
    kind is the empty string and not the literal ['default']: so it is
    for [?k1=v1&...&factory=&...], where the parameters in front have
    other names.  The value of the first [factory] parameter is always
    kept, and the default is substituted only when no parameter is
    named [factory]: so it is for [?k1=v1&...&kn=vn] when no [ki] is
    [factory]. *)
Theorem first_empty_factory_is_not_defaulted :
  (∀ q i n,
     list_find (λ p, p.1 = js "factory") (URLSearchParams.new q) = Some (i, (n, [])) →
     opener.factory (Some q) = [] ∧ opener.factory (Some q) ≠ js "default") ∧
  (∀ others more,
     forallb plain_parameter (others ++ more) = true →
     Forall (λ p, p.1 ≠ js "factory") others →
     opener.factory
       (Some (ch "?" :: query_string (others ++ (js "factory", []) :: more)))
     = []) ∧
  (∀ q i n v,
     list_find (λ p, p.1 = js "factory") (URLSearchParams.new q) = Some (i, (n, v)) →
     opener.factory (Some q) = v) ∧
  (∀ q,
     list_find (λ p, p.1 = js "factory") (URLSearchParams.new q) = None →
     opener.factory (Some q) = js "default") ∧
  (∀ ps,
     forallb plain_parameter ps = true →
     Forall (λ p, p.1 ≠ js "factory") ps →
     opener.factory (Some (ch "?" :: query_string ps)) = js "default").
Proof.
  assert (Hfound : ∀ q i n v,
     list_find (λ p, p.1 = js "factory") (URLSearchParams.new q) = Some (i, (n, v)) →
     opener.factory (Some q) = v).
  { intros q i n v H. unfold opener.factory. by rewrite get_list_find, H. }
  split_and!.
  - intros q i n H. rewrite (Hfound q i n [] H). split; [done|].
    vm_compute. discriminate.
  - intros others more Hplain Hothers. unfold opener.factory.
    rewrite forallb_app in Hplain. apply andb_true_iff in Hplain as [Ho Hm].
    rewrite new_query_string
      by (rewrite forallb_app; cbn [forallb]; by rewrite Ho, Hm).
    rewrite fmap_app, fmap_cons.
    rewrite get_skip_all by by apply Forall_decoded_names.
    by rewrite get_first.
  - exact Hfound.
  - intros q H. unfold opener.factory. by rewrite get_list_find, H.
  - intros ps Hplain Hps. unfold opener.factory.
    rewrite new_query_string by done.
    by rewrite get_none by by apply Forall_decoded_names.
Qed.

Lemma first_empty_factory_is_not_defaulted_witness :
  let others := [(js "a", js "1")] in
  let more := [(js "factory", js "x"); (js "b", js "2")] in
  (forallb plain_parameter (others ++ more) = true ∧
   Forall (λ p : jsstring * jsstring, p.1 ≠ js "factory") others) ∧
  opener.factory (Some (js "?a=1&factory=&factory=x&b=2")) = [] ∧
  opener.factory (Some (js "?a=1")) = js "default".
Proof.
  intros others more.
  assert (H1 : forallb plain_parameter (others ++ more) = true)
    by (vm_compute; reflexivity).
  assert (H2 : Forall (λ p : jsstring * jsstring, p.1 ≠ js "factory") others).
  { apply Forall_singleton. vm_compute. discriminate. }
  assert (H3 : forallb plain_parameter others = true) by (vm_compute; reflexivity).
  split; [by split|]. split.
  - exact (proj1 (proj2 first_empty_factory_is_not_defaulted) others more H1 H2).
  - exact (proj2 (proj2 (proj2 (proj2 first_empty_factory_is_not_defaulted)))
             others H3 H2).
Defined.

(** ** More on the application class and the theme *)

Section AppFacts.

Lemma GriffinNotebookApp_new_defaulting options heap :
  nullish (get_property (default ∅ options) (js "shell")) = true →
  GriffinNotebookApp.new options heap
  = (<[js "shell" := Ref (length heap)]> (default ∅ options),
     heap ++ [GriffinNotebookShell.new]).
Proof.
  intros H. unfold GriffinNotebookApp.new, alloc_GriffinNotebookShell.
  destruct options as [o|]; cbn [default id] in *.
  - by rewrite H.
  - unfold get_property. rewrite lookup_singleton_eq. cbn [default id nullish].
    by rewrite insert_singleton_eq.
Qed.

Lemma get_property_insert (o : gmap jsstring value) name v :
  get_property (<[name := v]> o) name = v.
Proof. unfold get_property. by rewrite lookup_insert_eq. Qed.

End AppFacts.

(** X15: a shell that the caller supplies and that is not nullish is
    kept: the options reach the base constructor exactly as they were
    given, and no shell is constructed. *)
Theorem GriffinNotebookApp_new_keeps_supplied_shell
    (o : gmap jsstring value) (heap : list ShellObject) :
  nullish (get_property o (js "shell")) = false →
  GriffinNotebookApp.new (Some o) heap = (o, heap).
Proof. apply GriffinNotebookApp_new_supplied_shell. Qed.

Lemma GriffinNotebookApp_new_keeps_supplied_shell_witness :
  let o : gmap jsstring value := {[ js "shell" := Ref 0 ]} in
  let heap := [{| class := NotebookShellClass; fields := NotebookShell.new |}] in
  nullish (get_property o (js "shell")) = false ∧
  GriffinNotebookApp.new (Some o) heap = (o, heap).
Proof.
  intros o heap.
  assert (H : nullish (get_property o (js "shell")) = false)
    by (vm_compute; reflexivity).
  split; [exact H|].
  exact (GriffinNotebookApp_new_keeps_supplied_shell o heap H).
Defined.

(** X16: whatever the caller passes, the base constructor receives a
    shell that is not nullish; the constructor allocates at most one
    object, a [GriffinNotebookShell], and leaves the objects that
    exist as they are. *)
Theorem GriffinNotebookApp_new_always_has_shell
    (options : option (gmap jsstring value)) (heap : list ShellObject) :
  let result := GriffinNotebookApp.new options heap in
  nullish (get_property result.1 (js "shell")) = false ∧
  (∃ l, result.2 = heap ++ l ∧ length l ≤ 1 ∧
        Forall (λ o, o = GriffinNotebookShell.new) l) ∧
  (∀ a o, heap !! a = Some o → result.2 !! a = Some o).
Proof.
  cbv zeta.
  destruct (nullish (get_property (default ∅ options) (js "shell"))) eqn:Hn.
  - rewrite (GriffinNotebookApp_new_defaulting options heap Hn). cbn [fst snd].
    split_and!.
    + by rewrite get_property_insert.
    + exists [GriffinNotebookShell.new]. split_and!; [done|cbn; lia|].
      by apply Forall_singleton.
    + intros a o Ha. by apply lookup_app_l_Some.
  - destruct options as [o|]; cbn [default id] in Hn; [|done].
    rewrite (GriffinNotebookApp_new_supplied_shell o heap Hn). cbn [fst snd].
    split_and!; [done| |done].
    exists []. rewrite app_nil_r. split_and!; [done|cbn; lia|done].
Qed.

(** X17: two applications that fall back to the default shell do not
    share it: each construction stores its own [GriffinNotebookShell]
    under its own reference. *)
Theorem default_shells_are_not_shared
    (options1 options2 : option (gmap jsstring value)) (heap : list ShellObject) :
  nullish (get_property (default ∅ options1) (js "shell")) = true →
  nullish (get_property (default ∅ options2) (js "shell")) = true →
  let first := GriffinNotebookApp.new options1 heap in
  let second := GriffinNotebookApp.new options2 first.2 in
  first.1 !! js "shell" = Some (Ref (length heap)) ∧
  second.1 !! js "shell" = Some (Ref (S (length heap))) ∧
  second.2 !! length heap = Some GriffinNotebookShell.new ∧
  second.2 !! S (length heap) = Some GriffinNotebookShell.new.
Proof.
  intros H1 H2. cbv zeta.
  rewrite (GriffinNotebookApp_new_defaulting options1 heap H1). cbn [fst snd].
  rewrite (GriffinNotebookApp_new_defaulting options2 _ H2). cbn [fst snd].
  rewrite !length_app. cbn [length]. rewrite Nat.add_1_r.
  split_and!.
  - apply lookup_insert_eq.
  - apply lookup_insert_eq.
  - rewrite lookup_app_l by (rewrite length_app; cbn; lia).
    by rewrite lookup_app_r, Nat.sub_diag.
  - rewrite lookup_app_r by (rewrite length_app; cbn; lia).
    rewrite length_app. cbn [length].
    by replace (S (length heap) - (length heap + 1)) with 0 by lia.
Qed.

Lemma default_shells_are_not_shared_witness :
  let options2 : option (gmap jsstring value) := Some {[ js "shell" := Null ]} in
  (nullish (get_property (default ∅ None) (js "shell")) = true ∧
   nullish (get_property (default ∅ options2) (js "shell")) = true) ∧
  (GriffinNotebookApp.new None []).1 !! js "shell" = Some (Ref 0) ∧
  (GriffinNotebookApp.new options2 (GriffinNotebookApp.new None []).2).1 !! js "shell"
    = Some (Ref 1).
Proof.
  intros options2.
  assert (H1 : nullish (get_property (default ∅ None) (js "shell")) = true)
    by (vm_compute; reflexivity).
  assert (H2 : nullish (get_property (default ∅ options2) (js "shell")) = true)
    by (vm_compute; reflexivity).
  split; [by split|].
  pose proof (default_shells_are_not_shared None options2 [] H1 H2) as (Ha & Hb & _).
  by split.
Defined.

(** X18: the theme that is selected depends on nothing but the
    [darkTheme] entry of the page configuration: setting or removing
    any other option leaves the outcome as it is, and so does the
    theme that was current before. *)
Theorem theme_activate_depends_only_on_darkTheme
    (config : gmap jsstring jsstring) (name v : jsstring)
    (themeManager themeManager' : IThemeManager) :
  name ≠ js "darkTheme" →
  theme.activate (<[name := v]> config) themeManager
    = theme.activate config themeManager ∧
  theme.activate (delete name config) themeManager
    = theme.activate config themeManager ∧
  theme (theme.activate config themeManager)
    = theme (theme.activate config themeManager').
Proof.
  intros Hne. unfold theme.activate, getOption. split_and!.
  - by rewrite lookup_insert_ne.
  - by rewrite lookup_delete_ne.
  - by destruct (decide _).
Qed.

Lemma theme_activate_depends_only_on_darkTheme_witness :
  let config : gmap jsstring jsstring := {[ js "darkTheme" := js "true" ]} in
  let tm := {| theme := Some (js "JupyterLab Light"); setTheme_calls := [] |} in
  js "baseUrl" ≠ js "darkTheme" ∧
  theme (theme.activate (<[js "baseUrl" := js "/"]> config) tm)
    = Some (js "JupyterLab Dark").
Proof.
  intros config tm.
  assert (H : js "baseUrl" ≠ js "darkTheme") by (vm_compute; discriminate).
  split; [exact H|].
  rewrite (proj1 (theme_activate_depends_only_on_darkTheme
                    config (js "baseUrl") (js "/") tm tm H)).
  vm_compute. reflexivity.
Defined.

(** ** Values of [factory] in any script *)

(** Linear arithmetic with division and remainder by constants. *)
Ltac nlia := zify; Z.to_euclidean_division_equations; lia.

Section UnicodeFacts.
Import URLSearchParams.
Local Open Scope N_scope.


(** The bit operations of the encoder and of the decoder, as
    arithmetic. *)
Lemma land_shiftl_low a x k : x < 2 ^ k → N.land (N.shiftl a k) x = 0.
Proof.
  intros Hx. apply N.bits_inj. intros n. rewrite N.land_spec, N.bits_0.
  destruct (N.lt_ge_cases n k) as [Hn|Hn].
  - by rewrite N.shiftl_spec_low.
  - destruct (N.eq_dec x 0) as [->|Hx0]; [by rewrite N.bits_0, andb_false_r|].
    rewrite (N.bits_above_log2 x n), andb_false_r; [done|].
    apply N.lt_le_trans with k; [|done]. apply N.log2_lt_pow2; lia.
Qed.

Lemma lor_shiftl_6 a x : x < 64 → N.lor (N.shiftl a 6) x = a * 64 + x.
Proof.
  intros Hx.
  rewrite <- N.lxor_lor, <- N.add_nocarry_lxor by by apply land_shiftl_low.
  by rewrite N.shiftl_mul_pow2.
Qed.

Lemma land_63 a : N.land a 63 = a mod 64.
Proof. change 63 with (N.ones 6). by rewrite N.land_ones. Qed.
Lemma land_31 a : N.land a 31 = a mod 32.
Proof. change 31 with (N.ones 5). by rewrite N.land_ones. Qed.
Lemma land_15 a : N.land a 15 = a mod 16.
Proof. change 15 with (N.ones 4). by rewrite N.land_ones. Qed.
Lemma land_7 a : N.land a 7 = a mod 8.
Proof. change 7 with (N.ones 3). by rewrite N.land_ones. Qed.
Lemma shiftr_6 a : N.shiftr a 6 = a / 64.
Proof. by rewrite N.shiftr_div_pow2. Qed.
Lemma shiftr_12 a : N.shiftr a 12 = a / 4096.
Proof. by rewrite N.shiftr_div_pow2. Qed.
Lemma shiftr_18 a : N.shiftr a 18 = a / 262144.
Proof. by rewrite N.shiftr_div_pow2. Qed.

Lemma in_range_true lo hi b : lo ≤ b → b ≤ hi → URI.in_range lo hi b = true.
Proof.
  intros H1 H2. unfold URI.in_range.
  destruct (N.leb_spec lo b); [|lia]. destruct (N.leb_spec b hi); [done|lia].
Qed.

Lemma in_range_false lo hi b : b < lo ∨ hi < b → URI.in_range lo hi b = false.
Proof.
  intros H. unfold URI.in_range.
  destruct (N.leb_spec lo b), (N.leb_spec b hi); try done; lia.
Qed.

Lemma handler_ascii b : b ≤ 127 → utf8_handler utf8_decoder_init b = ([b], utf8_decoder_init).
Proof.
  intros Hb. unfold utf8_handler, utf8_lead. cbn [bytes_needed utf8_decoder_init].
  destruct (N.leb_spec b 127); [done|lia].
Qed.

Lemma handler_lead2 b :
  194 ≤ b → b ≤ 223 →
  utf8_handler utf8_decoder_init b
  = ([], {| code_point := b mod 32; bytes_seen := 0; bytes_needed := 1;
            lower_boundary := 128; upper_boundary := 191 |}).
Proof.
  intros H1 H2. unfold utf8_handler, utf8_lead. cbn [bytes_needed utf8_decoder_init].
  destruct (N.leb_spec b 127); [lia|].
  by rewrite in_range_true, land_31 by done.
Qed.

Lemma handler_lead3 b :
  224 ≤ b → b ≤ 239 →
  utf8_handler utf8_decoder_init b
  = ([], {| code_point := b mod 16; bytes_seen := 0; bytes_needed := 2;
            lower_boundary := if b =? 224 then 160 else 128;
            upper_boundary := if b =? 237 then 159 else 191 |}).
Proof.
  intros H1 H2. unfold utf8_handler, utf8_lead. cbn [bytes_needed utf8_decoder_init].
  destruct (N.leb_spec b 127); [lia|].
  rewrite in_range_false by lia. by rewrite in_range_true, land_15 by done.
Qed.

Lemma handler_lead4 b :
  240 ≤ b → b ≤ 244 →
  utf8_handler utf8_decoder_init b
  = ([], {| code_point := b mod 8; bytes_seen := 0; bytes_needed := 3;
            lower_boundary := if b =? 240 then 144 else 128;
            upper_boundary := if b =? 244 then 143 else 191 |}).
Proof.
  intros H1 H2. unfold utf8_handler, utf8_lead. cbn [bytes_needed utf8_decoder_init].
  destruct (N.leb_spec b 127); [lia|].
  rewrite !in_range_false by lia. by rewrite in_range_true, land_7 by done.
Qed.

Lemma handler_continue cp seen needed lo hi b :
  lo ≤ b → b ≤ hi →
  utf8_handler {| code_point := cp; bytes_seen := seen; bytes_needed := S needed;
                  lower_boundary := lo; upper_boundary := hi |} b
  = if decide (seen = needed)
    then ([cp * 64 + b mod 64], utf8_decoder_init)
    else ([], {| code_point := cp * 64 + b mod 64; bytes_seen := S seen;
                 bytes_needed := S needed;
                 lower_boundary := 128; upper_boundary := 191 |}).
Proof.
  intros H1 H2. unfold utf8_handler.
  cbn [bytes_needed bytes_seen code_point lower_boundary upper_boundary].
  rewrite in_range_true by done. cbn [negb].
  rewrite land_63, lor_shiftl_6 by (apply N.mod_lt; lia).
  destruct (decide (seen = needed)) as [->|Hne].
  - by rewrite decide_True.
  - rewrite decide_False; [done|]. intros [=]. done.
Qed.

Lemma plus_to_space_high b l :
  128 ≤ b → plus_to_space (b :: l) = b :: plus_to_space l.
Proof.
  intros Hb. unfold plus_to_space. rewrite fmap_cons.
  destruct (N.eqb_spec b (ch "+")) as [E|_]; [|done].
  change (ch "+") with 43 in E. lia.
Qed.

(** The decoder reads back the bytes of one scalar value (a space for
    [+]) and ends in its initial state; unless the scalar value is [&]
    or [%], none of its bytes is. *)
Lemma scalar_round_trip_spec cp :
  is_scalar cp = true →
  feed utf8_decoder_init (plus_to_space (utf8_encode_scalar cp))
    = ([if cp =? ch "+" then 32 else cp], utf8_decoder_init) ∧
  (cp ≠ ch "&" → cp ≠ ch "%" →
   forallb (λ b, negb (b =? ch "&") && negb (b =? ch "%")) (utf8_encode_scalar cp)
   = true).
Proof.
  intros Hs.
  assert (Hsc : cp < 55296 ∨ (57344 ≤ cp ∧ cp < 1114112)).
  { unfold is_scalar in Hs.
    apply orb_true_iff in Hs as [H|[H1 H2]%andb_true_iff].
    - left. by apply N.ltb_lt.
    - right. split; [by apply N.leb_le|by apply N.ltb_lt]. }
  clear Hs. unfold utf8_encode_scalar.
  assert (Hhigh : ∀ b, 128 ≤ b → negb (b =? ch "&") && negb (b =? ch "%") = true).
  { intros b Hb.
    destruct (N.eqb_spec b (ch "&")) as [E|_]; [change (ch "&") with 38 in E; lia|].
    destruct (N.eqb_spec b (ch "%")) as [E|_]; [change (ch "%") with 37 in E; lia|].
    done. }
  destruct (N.leb_spec cp 127) as [H1|H1].
  { split.
    - unfold plus_to_space. cbn [fmap list_fmap feed].
      rewrite handler_ascii; [done|].
      destruct (cp =? ch "+"); lia.
    - intros Ha Hp. cbn [forallb].
      apply N.eqb_neq in Ha, Hp. by rewrite Ha, Hp. }
  destruct (N.leb_spec cp 2047) as [H2|H2].
  { rewrite shiftr_6, land_63.
    destruct (N.eqb_spec cp (ch "+")) as [E|_]; [change (ch "+") with 43 in E; lia|].
    split.
    - rewrite !plus_to_space_high by nlia. cbn [plus_to_space fmap list_fmap feed].
      rewrite handler_lead2 by nlia.
      rewrite handler_continue by nlia. rewrite decide_True by done.
      cbn [app]. do 2 f_equal. nlia.
    - intros _ _. cbn [forallb]. rewrite !Hhigh by nlia. done. }
  destruct (N.leb_spec cp 65535) as [H3|H3].
  { rewrite shiftr_12, shiftr_6, !land_63.
    destruct (N.eqb_spec cp (ch "+")) as [E|_]; [change (ch "+") with 43 in E; lia|].
    split.
    - rewrite !plus_to_space_high by nlia. cbn [plus_to_space fmap list_fmap feed].
      rewrite handler_lead3 by nlia.
      rewrite handler_continue.
      + rewrite decide_False by done. rewrite handler_continue by nlia.
        rewrite decide_True by done. cbn [app]. do 2 f_equal. nlia.
      + destruct (N.eqb_spec (224 + cp / 4096) 224); nlia.
      + destruct (N.eqb_spec (224 + cp / 4096) 237); nlia.
    - intros _ _. cbn [forallb]. rewrite !Hhigh by nlia. done. }
  rewrite shiftr_18, shiftr_12, shiftr_6, !land_63.
  destruct (N.eqb_spec cp (ch "+")) as [E|_]; [change (ch "+") with 43 in E; lia|].
  split.
  - rewrite !plus_to_space_high by nlia. cbn [plus_to_space fmap list_fmap feed].
    rewrite handler_lead4 by nlia.
    rewrite handler_continue.
    + rewrite decide_False by done. rewrite handler_continue by nlia.
      rewrite decide_False by done. rewrite handler_continue by nlia.
      rewrite decide_True by done. cbn [app]. do 2 f_equal. nlia.
    + destruct (N.eqb_spec (240 + cp / 262144) 240); nlia.
    + destruct (N.eqb_spec (240 + cp / 262144) 244); nlia.
  - intros _ _. cbn [forallb]. rewrite !Hhigh by nlia. done.
Qed.

Lemma feed_decode st bytes rest :
  utf8_decode_from st (bytes ++ rest)
  = (feed st bytes).1 ++ utf8_decode_from (feed st bytes).2 rest.
Proof.
  revert st. induction bytes as [|b bytes IH]; intros st; [done|].
  cbn [app utf8_decode_from feed].
  destruct (utf8_handler st b) as [out st']. rewrite IH.
  destruct (feed st' bytes) as [out' st'']. cbn [fst snd]. by rewrite app_assoc.
Qed.

(** The decoder reads back the scalar values that were encoded, a
    space for each [+]. *)
Lemma utf8_round_trip cps :
  forallb is_scalar cps = true →
  utf8_decode_without_BOM (plus_to_space (utf8_encode cps)) = plus_to_space cps.
Proof.
  unfold utf8_decode_without_BOM, utf8_encode, plus_to_space.
  induction cps as [|cp cps IH]; [done|]. cbn [forallb].
  intros [Hcp Hcps]%andb_true_iff.
  rewrite bind_cons, fmap_app, feed_decode.
  destruct (scalar_round_trip_spec cp Hcp) as [Hfeed _].
  unfold plus_to_space in Hfeed. rewrite Hfeed. cbn [fst snd].
  by rewrite IH, fmap_cons.
Qed.

Lemma utf8_encode_no_special cps :
  forallb is_scalar cps = true →
  forallb (λ c, negb (c =? ch "&") && negb (c =? ch "%")) cps = true →
  forallb (λ b, negb (b =? ch "&") && negb (b =? ch "%")) (utf8_encode cps) = true.
Proof.
  unfold utf8_encode. induction cps as [|cp cps IH]; [done|]. cbn [forallb].
  intros [Hcp Hcps]%andb_true_iff [Hc Hs]%andb_true_iff.
  apply andb_true_iff in Hc as [Ha Hp].
  apply negb_true_iff, N.eqb_neq in Ha. apply negb_true_iff, N.eqb_neq in Hp.
  rewrite bind_cons, forallb_app, IH by done.
  destruct (scalar_round_trip_spec cp Hcp) as [_ Hb]. by rewrite Hb.
Qed.

Lemma percent_decode_no_percent l :
  forallb (λ b, negb (b =? ch "%")) l = true → percent_decode l = l.
Proof.
  induction l as [|b l IH]; [done|]. cbn [forallb].
  intros [Hb Hl]%andb_true_iff. apply negb_true_iff in Hb.
  cbn [percent_decode]. by rewrite Hb, IH.
Qed.

Lemma surrogate_pair_inv c d :
  is_high_surrogate c = true → is_low_surrogate d = true →
  let cp := 65536 + (c - 55296) * 1024 + (d - 56320) in
  65536 ≤ cp ∧ cp < 1114112 ∧
  (cp - 65536) / 1024 + 55296 = c ∧ (cp - 65536) mod 1024 + 56320 = d.
Proof.
  unfold is_high_surrogate, is_low_surrogate.
  intros [Hc1 Hc2]%andb_true_iff [Hd1 Hd2]%andb_true_iff.
  apply N.leb_le in Hc1, Hc2, Hd1, Hd2. cbv zeta.
  assert (Heq : 65536 + (c - 55296) * 1024 + (d - 56320) - 65536
                = 1024 * (c - 55296) + (d - 56320)) by lia.
  rewrite Heq. split_and!; [lia|lia| |].
  - rewrite <- (N.div_unique _ 1024 (c - 55296) (d - 56320)); [lia|lia|done].
  - rewrite <- (N.mod_unique _ 1024 (c - 55296) (d - 56320)); [lia|lia|done].
Qed.

(** On a well-formed string the conversion to scalar values goes
    piece by piece, gives scalar values, adds none of [&] and [%], and
    is undone by the conversion back, also after the replacement of
    [+]. *)
Lemma well_formed_facts n :
  ∀ v, (length v ≤ n)%nat → well_formed v = true →
    (∀ rest, ToUSVString (v ++ rest) = ToUSVString v ++ ToUSVString rest) ∧
    forallb is_scalar (ToUSVString v) = true ∧
    (forallb (λ c, negb (c =? ch "&") && negb (c =? ch "%")) v = true →
     forallb (λ c, negb (c =? ch "&") && negb (c =? ch "%")) (ToUSVString v) = true) ∧
    of_USVString (plus_to_space (ToUSVString v)) = plus_to_space v.
Proof.
  induction n as [|n IH]; intros v Hlen Hwf.
  { destruct v; [done|cbn in Hlen; lia]. }
  destruct v as [|c t]; [done|]. cbn [length] in Hlen.
  cbn [well_formed] in Hwf. cbn [app ToUSVString].
  destruct (is_high_surrogate c) eqn:Hh.
  - destruct t as [|d t']; [done|]. cbn [app length] in Hlen |- *.
    apply andb_true_iff in Hwf as [Hl Hwf]. rewrite Hl.
    destruct (IH t' ltac:(lia) Hwf) as (Happ & Hsc & Hsp & Hback).
    destruct (surrogate_pair_inv c d Hh Hl) as (Hlo & Hhi & Hdiv & Hmod).
    cbv zeta in Hlo, Hhi, Hdiv, Hmod.
    unfold is_high_surrogate in Hh. unfold is_low_surrogate in Hl.
    apply andb_true_iff in Hh as [Hc1 Hc2]. apply andb_true_iff in Hl as [Hd1 Hd2].
    apply N.leb_le in Hc1, Hc2, Hd1, Hd2.
    split_and!.
    + intros rest. by rewrite Happ.
    + cbn [forallb]. rewrite Hsc. unfold is_scalar.
      destruct (N.leb_spec 57344 (65536 + (c - 55296) * 1024 + (d - 56320))); [|lia].
      destruct (N.ltb_spec (65536 + (c - 55296) * 1024 + (d - 56320)) 1114112); [|lia].
      by rewrite orb_true_r.
    + cbn [forallb]. intros [_ [_ Ht]%andb_true_iff]%andb_true_iff.
      rewrite Hsp by done.
      destruct (N.eqb_spec (65536 + (c - 55296) * 1024 + (d - 56320)) (ch "&")) as [E|_];
        [change (ch "&") with 38 in E; lia|].
      destruct (N.eqb_spec (65536 + (c - 55296) * 1024 + (d - 56320)) (ch "%")) as [E|_];
        [change (ch "%") with 37 in E; lia|].
      done.
    + unfold plus_to_space, of_USVString in *. rewrite !fmap_cons, bind_cons, Hback.
      destruct (N.eqb_spec (65536 + (c - 55296) * 1024 + (d - 56320)) (ch "+")) as [E|_];
        [change (ch "+") with 43 in E; lia|].
      destruct (N.eqb_spec c (ch "+")) as [E|_]; [change (ch "+") with 43 in E; lia|].
      destruct (N.eqb_spec d (ch "+")) as [E|_]; [change (ch "+") with 43 in E; lia|].
      unfold URI.UTF16EncodeCodePoint.
      destruct (N.leb_spec (65536 + (c - 55296) * 1024 + (d - 56320)) 65535); [lia|].
      by rewrite Hdiv, Hmod.
  - apply andb_true_iff in Hwf as [[Hl Hc]%andb_true_iff Hwf].
    apply negb_true_iff in Hl. rewrite Hl. apply N.ltb_lt in Hc.
    destruct (IH t ltac:(lia) Hwf) as (Happ & Hsc & Hsp & Hback).
    unfold is_high_surrogate in Hh. unfold is_low_surrogate in Hl.
    split_and!.
    + intros rest. by rewrite Happ.
    + cbn [forallb]. rewrite Hsc. unfold is_scalar.
      destruct (N.ltb_spec c 55296); [done|].
      destruct (N.leb_spec 55296 c); [|lia].
      destruct (N.leb_spec c 56319); [done|].
      destruct (N.leb_spec 56320 c); [|lia].
      destruct (N.leb_spec c 57343); [done|].
      destruct (N.leb_spec 57344 c); [|lia].
      destruct (N.ltb_spec c 1114112); [done|lia].
    + cbn [forallb]. intros [-> Ht]%andb_true_iff. by rewrite Hsp.
    + unfold plus_to_space, of_USVString in *. rewrite !fmap_cons, bind_cons, Hback.
      unfold URI.UTF16EncodeCodePoint.
      destruct (N.eqb_spec c (ch "+")) as [E|_].
      * done.
      * destruct (N.leb_spec c 65535); [done|lia].
Qed.

Lemma no_special_no_amp l :
  forallb (λ c, negb (c =? ch "&") && negb (c =? ch "%")) l = true →
  forallb (λ c, negb (c =? ch "&")) l = true.
Proof.
  induction l as [|c l IH]; [done|]. cbn [forallb].
  intros [[-> _]%andb_true_iff Hl]%andb_true_iff. by rewrite IH.
Qed.

Lemma no_special_plus_to_space l :
  forallb (λ c, negb (c =? ch "&") && negb (c =? ch "%")) l = true →
  forallb (λ c, negb (c =? ch "%")) (plus_to_space l) = true.
Proof.
  unfold plus_to_space. induction l as [|c l IH]; [done|]. cbn [forallb].
  intros [[_ Hc]%andb_true_iff Hl]%andb_true_iff.
  rewrite fmap_cons. cbn [forallb]. rewrite IH by done.
  destruct (c =? ch "+"); [done|]. by rewrite Hc.
Qed.

(** The first parameter of the bytes [factory=<bytes>], alone or
    followed by [&] and anything, when the bytes are the UTF-8
    encoding of scalar values without [&] and [%]. *)
Lemma urlencoded_parse_factory_scalars cps bytes :
  forallb is_scalar cps = true →
  forallb (λ c, negb (c =? ch "&") && negb (c =? ch "%")) cps = true →
  (bytes = [] ∨ ∃ t, bytes = ch "&" :: t) →
  ∃ params,
    urlencoded_parse (js "factory=" ++ utf8_encode cps ++ bytes)
    = (js "factory", of_USVString (plus_to_space cps)) :: params.
Proof.
  intros Hsc Hsp Hb.
  pose proof (utf8_encode_no_special cps Hsc Hsp) as Hbytes.
  assert (Hp : parse_tuple (js "factory=" ++ utf8_encode cps)
               = (js "factory", of_USVString (plus_to_space cps))).
  { unfold parse_tuple.
    change (js "factory=" ++ utf8_encode cps)
      with (js "factory" ++ ch "=" :: utf8_encode cps).
    rewrite break_on_app by reflexivity. cbn [default id].
    assert (Hkey : of_USVString (utf8_decode_without_BOM
              (percent_decode (plus_to_space (js "factory")))) = js "factory")
      by (vm_compute; reflexivity).
    rewrite Hkey, percent_decode_no_percent by by apply no_special_plus_to_space.
    by rewrite utf8_round_trip. }
  assert (Hsep : forallb (λ c, negb (c =? ch "&")) (js "factory=" ++ utf8_encode cps)
                 = true).
  { rewrite forallb_app, (no_special_no_amp _ Hbytes). reflexivity. }
  unfold urlencoded_parse. rewrite app_assoc.
  destruct Hb as [->|[t ->]].
  - rewrite app_nil_r, split_on_no_sep by done.
    rewrite filter_cons_True by done. rewrite fmap_cons, Hp. eauto.
  - rewrite split_on_app by done.
    rewrite filter_cons_True by done. rewrite fmap_cons, Hp. eauto.
Qed.

End UnicodeFacts.

(** X19: a value of [factory] in any script comes back as it was
    written: for a query string that starts with [?factory=<value>],
    where [<value>] is well-formed UTF-16 without [&] and [%] and is
    followed by the end of the string or by [&], the resolved view kind
    is [<value>] with each [+] replaced by a space.  The UTF-8 bytes
    that the parser makes of the value are decoded back to it. *)
Theorem factory_value_round_trip (value tail : jsstring) :
  well_formed value = true →
  forallb (λ c, negb (c =? ch "&")%N && negb (c =? ch "%")%N) value = true →
  (tail = [] ∨ ∃ t, tail = ch "&" :: t) →
  opener.factory (Some (js "?factory=" ++ value ++ tail))
  = URLSearchParams.plus_to_space value.
Proof.
  intros Hwf Hsp Ht. unfold opener.factory.
  change (js "?factory=" ++ value ++ tail)
    with (ch "?" :: js "factory=" ++ value ++ tail).
  rewrite new_question.
  rewrite ToUSVString_ascii_app by reflexivity.
  destruct (well_formed_facts (length value) value (le_n _) Hwf)
    as (Happ & Hsc & Hsp' & Hback).
  rewrite Happ.
  rewrite utf8_encode_ascii_app by reflexivity.
  unfold URLSearchParams.utf8_encode at 1. rewrite bind_app.
  fold (URLSearchParams.utf8_encode (URLSearchParams.ToUSVString value)).
  fold (URLSearchParams.utf8_encode (URLSearchParams.ToUSVString tail)).
  destruct (urlencoded_parse_factory_scalars
              (URLSearchParams.ToUSVString value)
              (URLSearchParams.utf8_encode (URLSearchParams.ToUSVString tail))
              Hsc (Hsp' Hsp)) as [params ->].
  - destruct Ht as [->|[t ->]]; [by left|right].
    exists (URLSearchParams.utf8_encode (URLSearchParams.ToUSVString t)).
    reflexivity.
  - by rewrite get_first, Hback.
Qed.

Lemma factory_value_round_trip_witness :
  let value := [201%N] ++ js "diteur+" ++ [55357%N; 56832%N] in
  (well_formed value = true ∧
   forallb (λ c, negb (c =? ch "&")%N && negb (c =? ch "%")%N) value = true ∧
   (js "&x=1" = [] ∨ ∃ t, js "&x=1" = ch "&" :: t)) ∧
  opener.factory (Some (js "?factory=" ++ value ++ js "&x=1"))
  = [201%N] ++ js "diteur " ++ [55357%N; 56832%N].
Proof.
  intros value.
  assert (H1 : well_formed value = true) by (vm_compute; reflexivity).
  assert (H2 : forallb (λ c, negb (c =? ch "&")%N && negb (c =? ch "%")%N) value = true)
    by (vm_compute; reflexivity).
  assert (H3 : js "&x=1" = [] ∨ ∃ t, js "&x=1" = ch "&" :: t).
  { right. by exists (js "x=1"). }
  split; [by split_and!|].
  rewrite (factory_value_round_trip value (js "&x=1") H1 H2 H3).
  vm_compute. reflexivity.
Defined.

(** ** Escaped UTF-8 in the path *)

Section EscapeFacts.
Import URI URLSearchParams.
Local Open Scope N_scope.

Lemma lor_shiftl a x k : x < 2 ^ k → N.lor (N.shiftl a k) x = a * 2 ^ k + x.
Proof.
  intros Hx.
  rewrite <- N.lxor_lor, <- N.add_nocarry_lxor by by apply land_shiftl_low.
  by rewrite N.shiftl_mul_pow2.
Qed.

(** The decoder of the URI functions reads the bytes of a scalar value
    back to it. *)
Lemma utf8_code_point_encode cp :
  is_scalar cp = true → 128 ≤ cp →
  utf8_code_point (utf8_encode_scalar cp) = Some cp ∧
  ∃ b1 rest, utf8_encode_scalar cp = b1 :: rest ∧ rest ≠ [] ∧
             leading_ones b1 = S (length rest) ∧ (length rest ≤ 3)%nat.
Proof.
  intros Hs H1.
  assert (Hsc : cp < 55296 ∨ (57344 ≤ cp ∧ cp < 1114112)).
  { unfold is_scalar in Hs.
    apply orb_true_iff in Hs as [H|[Ha Hb]%andb_true_iff].
    - left. by apply N.ltb_lt.
    - right. split; [by apply N.leb_le|by apply N.ltb_lt]. }
  clear Hs. unfold utf8_encode_scalar.
  destruct (N.leb_spec cp 127) as [H0|_]; [lia|].
  destruct (N.leb_spec cp 2047) as [H2|H2].
  { rewrite shiftr_6, land_63. split.
    - unfold utf8_code_point.
      rewrite !in_range_true by nlia. cbn [andb].
      rewrite land_31, land_63, (lor_shiftl _ _ 6) by (cbn; nlia).
      f_equal. cbn. nlia.
    - eexists _, _. split_and!; [done|done| |cbn; lia].
      cbn [length]. unfold leading_ones.
      repeat match goal with
             | |- context [N.ltb ?a ?b] => destruct (N.ltb_spec a b)
             end; try done; nlia. }
  destruct (N.leb_spec cp 65535) as [H3|H3].
  { rewrite shiftr_12, shiftr_6, !land_63. split.
    - unfold utf8_code_point.
      rewrite (in_range_true 224 239) by nlia.
      rewrite (in_range_true _ _ (128 + (cp / 64) mod 64))
        by (destruct (N.eqb_spec (224 + cp / 4096) 224),
                     (N.eqb_spec (224 + cp / 4096) 237); nlia).
      rewrite in_range_true by nlia. cbn [andb].
      rewrite land_15, !land_63.
      rewrite (lor_shiftl _ ((128 + cp mod 64) mod 64) 6) by (cbn; nlia).
      rewrite (lor_shiftl _ _ 12) by (cbn; nlia).
      f_equal. cbn. nlia.
    - eexists _, _. split_and!; [done|done| |cbn; lia].
      cbn [length]. unfold leading_ones.
      repeat match goal with
             | |- context [N.ltb ?a ?b] => destruct (N.ltb_spec a b)
             end; try done; nlia. }
  rewrite shiftr_18, shiftr_12, shiftr_6, !land_63. split.
  - unfold utf8_code_point.
    rewrite (in_range_true 240 244) by nlia.
    rewrite (in_range_true _ _ (128 + (cp / 4096) mod 64))
      by (destruct (N.eqb_spec (240 + cp / 262144) 240),
                   (N.eqb_spec (240 + cp / 262144) 244); nlia).
    rewrite !in_range_true by nlia. cbn [andb].
    rewrite land_7, !land_63.
    rewrite (lor_shiftl _ ((128 + cp mod 64) mod 64) 6) by (cbn; nlia).
    rewrite (lor_shiftl _ _ 12) by (cbn; nlia).
    rewrite (lor_shiftl _ _ 18) by (cbn; nlia).
    f_equal. cbn. nlia.
  - eexists _, _. split_and!; [done|done| |cbn; lia].
    cbn [length]. unfold leading_ones.
    repeat match goal with
             | |- context [N.ltb ?a ?b] => destruct (N.ltb_spec a b)
             end; try done; nlia.
Qed.

Lemma Decode_escape_single h1 h2 B t :
  ParseHexOctet h1 h2 = Some B → leading_ones B = 0%nat →
  Decode (ch "%" :: h1 :: h2 :: t) None = (R ←! Decode t None; Normal (B :: R)).
Proof. intros HB Hl. cbn [Decode]. by rewrite N.eqb_refl, HB, Hl. Qed.

Lemma Decode_escape_lead h1 h2 B t k :
  ParseHexOctet h1 h2 = Some B → leading_ones B = S (S k) → (k ≤ 2)%nat →
  Decode (ch "%" :: h1 :: h2 :: t) None = Decode t (Some (S k, [B])).
Proof.
  intros HB Hl Hk. cbn [Decode]. rewrite N.eqb_refl, HB, Hl.
  destruct k as [|[|[|k]]]; [done..|lia].
Qed.

Lemma Decode_escape_more h1 h2 B t j octets :
  ParseHexOctet h1 h2 = Some B →
  Decode (ch "%" :: h1 :: h2 :: t) (Some (S (S j), octets))
  = Decode t (Some (S j, octets ++ [B])).
Proof. intros HB. cbn [Decode]. by rewrite N.eqb_refl, HB. Qed.

Lemma Decode_escape_last h1 h2 B t octets V :
  ParseHexOctet h1 h2 = Some B → utf8_code_point (octets ++ [B]) = Some V →
  Decode (ch "%" :: h1 :: h2 :: t) (Some (1%nat, octets))
  = (R ←! Decode t None; Normal (UTF16EncodeCodePoint V ++ R)).
Proof. intros HB HV. cbn [Decode]. by rewrite N.eqb_refl, HB, HV. Qed.

(** The escapes of the continuation bytes of a sequence complete it. *)
Lemma Decode_continuation hs bytes :
  Forall2 (λ h b, ParseHexOctet h.1 h.2 = Some b) hs bytes →
  ∀ octets V t, bytes ≠ [] →
    utf8_code_point (octets ++ bytes) = Some V →
    Decode (escapes hs ++ t) (Some (length bytes, octets))
    = (R ←! Decode t None; Normal (UTF16EncodeCodePoint V ++ R)).
Proof.
  unfold escapes.
  induction 1 as [|[h1 h2] b hs bytes Hb Hrest IH]; intros octets V t Hne HV; [done|].
  rewrite bind_cons. cbn [fst snd app length]. cbn [fst snd] in Hb.
  destruct bytes as [|b' bytes].
  - apply Forall2_nil_inv_r in Hrest as ->. cbn [mbind list_bind app].
    by apply (Decode_escape_last h1 h2 b t octets V).
  - cbn [length]. rewrite (Decode_escape_more _ _ b) by done.
    apply IH; [done|]. by rewrite <- app_assoc.
Qed.

(** The escapes of the UTF-8 bytes of one scalar value decode to it. *)
Lemma Decode_escaped_scalar cp hs t :
  is_scalar cp = true →
  Forall2 (λ h b, ParseHexOctet h.1 h.2 = Some b) hs (utf8_encode_scalar cp) →
  Decode (escapes hs ++ t) None
  = (R ←! Decode t None; Normal (UTF16EncodeCodePoint cp ++ R)).
Proof.
  intros Hs Hhs. destruct (N.lt_ge_cases cp 128) as [Hlt|Hge].
  - unfold utf8_encode_scalar in Hhs.
    destruct (N.leb_spec cp 127) as [_|?]; [|lia].
    apply Forall2_cons_inv_r in Hhs as ([h1 h2] & hs' & Hb & Hnil & ->).
    apply Forall2_nil_inv_r in Hnil as ->. cbn [fst snd] in Hb.
    unfold escapes. rewrite bind_cons. cbn [fst snd mbind list_bind app].
    assert (Hl : leading_ones cp = 0%nat).
    { unfold leading_ones. destruct (N.ltb_spec cp 128); [done|lia]. }
    rewrite (Decode_escape_single _ _ cp) by done.
    unfold UTF16EncodeCodePoint. destruct (N.leb_spec cp 65535); [done|lia].
  - destruct (utf8_code_point_encode cp Hs Hge)
      as (Hcp & b1 & rest & Henc & Hne & Hlead & Hlen).
    rewrite Henc in Hhs, Hcp.
    apply Forall2_cons_inv_r in Hhs as ([h1 h2] & hs' & Hb & Hrest & ->).
    cbn [fst snd] in Hb.
    unfold escapes. rewrite bind_cons. cbn [fst snd app].
    destruct rest as [|b2 rest]; [done|]. cbn [length] in Hlead, Hlen.
    rewrite (Decode_escape_lead _ _ b1 _ (length rest)) by (try done; lia).
    apply (Decode_continuation hs' (b2 :: rest) Hrest [b1] cp t); done.
Qed.

End EscapeFacts.

(** X20: percent-escaped UTF-8 decodes to the text it encodes: when
    every pair of hexadecimal digits in a list of escapes [%h1h2] is
    the corresponding byte of the UTF-8 encoding of some scalar
    values, [decodeURIComponent] returns those scalar values as
    UTF-16. *)
Theorem decodeURIComponent_escaped_utf8 (cps : list N) (hs : list (N * N)) :
  forallb is_scalar cps = true →
  Forall2 (λ h b, URI.ParseHexOctet h.1 h.2 = Some b) hs
          (URLSearchParams.utf8_encode cps) →
  URI.decodeURIComponent (escapes hs) = Normal (URLSearchParams.of_USVString cps).
Proof.
  unfold URI.decodeURIComponent, URLSearchParams.utf8_encode,
    URLSearchParams.of_USVString.
  revert hs. induction cps as [|cp cps IH]; intros hs Hs Hhs.
  - apply Forall2_nil_inv_r in Hhs as ->. done.
  - cbn [forallb] in Hs. apply andb_true_iff in Hs as [Hcp Hcps].
    rewrite bind_cons in Hhs.
    apply Forall2_app_inv_r in Hhs as (hs1 & hs2 & H1 & H2 & ->).
    unfold escapes. rewrite bind_app.
    fold (escapes hs1). fold (escapes hs2).
    rewrite (Decode_escaped_scalar cp hs1 (escapes hs2) Hcp H1).
    rewrite (IH hs2 Hcps H2). by rewrite bind_cons.
Qed.

Lemma decodeURIComponent_escaped_utf8_witness :
  let cps := [8364%N; 128512%N] in
  let hs := [(ch "E", ch "2"); (ch "8", ch "2"); (ch "A", ch "C");
             (ch "f", ch "0"); (ch "9", ch "F"); (ch "9", ch "8"); (ch "8", ch "0")] in
  (forallb is_scalar cps = true ∧
   Forall2 (λ h b, URI.ParseHexOctet h.1 h.2 = Some b) hs
           (URLSearchParams.utf8_encode cps)) ∧
  URI.decodeURIComponent (js "%E2%82%AC%f0%9F%98%80")
  = Normal [8364%N; 55357%N; 56832%N].
Proof.
  intros cps hs.
  assert (H1 : forallb is_scalar cps = true) by (vm_compute; reflexivity).
  assert (H2 : Forall2 (λ h b, URI.ParseHexOctet h.1 h.2 = Some b) hs
                 (URLSearchParams.utf8_encode cps)).
  { repeat constructor. }
  split; [by split|].
  exact (decodeURIComponent_escaped_utf8 cps hs H1 H2).
Defined.

(** ** Well-formed identifiers *)

Section WellFormedFacts.
Import URI URLSearchParams.
Local Open Scope N_scope.

Lemma in_range_inv lo hi b : in_range lo hi b = true → lo ≤ b ∧ b ≤ hi.
Proof.
  unfold in_range. intros [H1 H2]%andb_true_iff. by apply N.leb_le in H1, H2.
Qed.

(** The URI decoder accepts only encodings of scalar values. *)
Lemma utf8_code_point_scalar octets V :
  utf8_code_point octets = Some V → is_scalar V = true.
Proof.
  assert (Hsc : ∀ v, v < 55296 ∨ (57344 ≤ v ∧ v < 1114112) → is_scalar v = true).
  { intros v Hv. unfold is_scalar.
    destruct (N.ltb_spec v 55296); [done|].
    destruct (N.leb_spec 57344 v); [|lia].
    destruct (N.ltb_spec v 1114112); [done|lia]. }
  unfold utf8_code_point.
  destruct octets as [|b1 [|b2 [|b3 [|b4 [|b5 octets]]]]]; try done.
  - destruct (in_range 194 223 b1) eqn:H1; [|done].
    destruct (in_range 128 191 b2) eqn:H2; [|done].
    apply in_range_inv in H1, H2. intros [= <-]. apply Hsc.
    rewrite land_31, land_63, (lor_shiftl _ _ 6) by (cbn; nlia). cbn. nlia.
  - destruct (in_range 224 239 b1) eqn:H1; [|done].
    destruct (in_range _ _ b2) eqn:H2; [|done].
    destruct (in_range 128 191 b3) eqn:H3; [|done].
    apply in_range_inv in H1, H2, H3. intros [= <-]. apply Hsc.
    rewrite land_15, !land_63.
    rewrite (lor_shiftl _ (b3 mod 64) 6) by (cbn; nlia).
    rewrite (lor_shiftl _ _ 12) by (cbn; nlia). cbn.
    destruct (N.eqb_spec b1 224), (N.eqb_spec b1 237); nlia.
  - destruct (in_range 240 244 b1) eqn:H1; [|done].
    destruct (in_range _ _ b2) eqn:H2; [|done].
    destruct (in_range 128 191 b3) eqn:H3; [|done].
    destruct (in_range 128 191 b4) eqn:H4; [|done].
    apply in_range_inv in H1, H2, H3, H4. intros [= <-]. apply Hsc.
    rewrite land_7, !land_63.
    rewrite (lor_shiftl _ (b4 mod 64) 6) by (cbn; nlia).
    rewrite (lor_shiftl _ _ 12) by (cbn; nlia).
    rewrite (lor_shiftl _ _ 18) by (cbn; nlia). cbn.
    destruct (N.eqb_spec b1 240), (N.eqb_spec b1 244); nlia.
Qed.

Lemma well_formed_cons_low c t : c < 55296 → well_formed (c :: t) = well_formed t.
Proof.
  intros Hc. cbn [well_formed]. unfold is_high_surrogate, is_low_surrogate.
  destruct (N.leb_spec 55296 c); [lia|].
  destruct (N.leb_spec 56320 c); [lia|].
  destruct (N.ltb_spec c 65536); [done|lia].
Qed.

(** The UTF-16 form of a scalar value keeps a string well-formed. *)
Lemma well_formed_UTF16EncodeCodePoint V R :
  is_scalar V = true →
  well_formed (UTF16EncodeCodePoint V ++ R) = well_formed R.
Proof.
  unfold is_scalar, UTF16EncodeCodePoint. intros Hs.
  assert (Hsc : V < 55296 ∨ (57344 ≤ V ∧ V < 1114112)).
  { apply orb_true_iff in Hs as [H|[Ha Hb]%andb_true_iff].
    - left. by apply N.ltb_lt.
    - right. split; [by apply N.leb_le|by apply N.ltb_lt]. }
  destruct (N.leb_spec V 65535) as [H|H]; cbn [app well_formed];
    unfold is_high_surrogate, is_low_surrogate.
  - destruct (N.leb_spec 55296 V), (N.leb_spec V 56319),
      (N.leb_spec 56320 V), (N.leb_spec V 57343), (N.ltb_spec V 65536);
      cbn [andb negb]; try done; lia.
  - destruct (N.leb_spec 55296 ((V - 65536) / 1024 + 55296)); [|nlia].
    destruct (N.leb_spec ((V - 65536) / 1024 + 55296) 56319); [|nlia].
    destruct (N.leb_spec 56320 ((V - 65536) mod 1024 + 56320)); [|nlia].
    destruct (N.leb_spec ((V - 65536) mod 1024 + 56320) 57343); [|nlia].
    done.
Qed.

Lemma hex_digit_low h a : hex_digit h = Some a → h < 55296.
Proof.
  unfold hex_digit.
  destruct (N.leb_spec 48 h), (N.leb_spec h 57), (N.leb_spec 65 h),
    (N.leb_spec h 70), (N.leb_spec 97 h), (N.leb_spec h 102);
    cbn [andb]; intros [=]; lia.
Qed.

Lemma ParseHexOctet_low h1 h2 B :
  ParseHexOctet h1 h2 = Some B → h1 < 55296 ∧ h2 < 55296.
Proof.
  unfold ParseHexOctet.
  destruct (hex_digit h1) as [a|] eqn:H1; [|done].
  destruct (hex_digit h2) as [b|] eqn:H2; [|done]. intros _.
  split; by eapply hex_digit_low.
Qed.

Lemma Decode_well_formed_aux n :
  ∀ s, (length s ≤ n)%nat → ∀ p r,
    well_formed s = true → Decode s p = Normal r → well_formed r = true.
Proof.
  induction n as [|n IH]; intros s Hlen p r Hwf Hs.
  { destruct s; [|cbn in Hlen; lia]. cbn in Hs. destruct p; [done|].
    by injection Hs as <-. }
  destruct s as [|C t].
  { cbn in Hs. destruct p; [done|]. by injection Hs as <-. }
  cbn [length] in Hlen. cbn [Decode] in Hs.
  destruct (N.eqb_spec C (ch "%")) as [HC|HC].
  - subst C. destruct t as [|h1 [|h2 t']]; [done..|]. cbn [length] in Hlen.
    assert (Ht' : (length t' ≤ n)%nat) by lia.
    destruct (ParseHexOctet h1 h2) as [B|] eqn:HB; [|done].
    destruct (ParseHexOctet_low _ _ _ HB) as [Hh1 Hh2].
    rewrite !well_formed_cons_low in Hwf by (done || (change (ch "%") with 37; lia)).
    destruct p as [[j octets]|].
    + destruct j as [|[|j]].
      * by eapply IH.
      * destruct (utf8_code_point (octets ++ [B])) as [V|] eqn:HV; [|done].
        destruct (Decode t' None) as [R|] eqn:HR; [|done].
        cbn in Hs. injection Hs as <-.
        rewrite well_formed_UTF16EncodeCodePoint by by eapply utf8_code_point_scalar.
        by eapply IH.
      * by eapply IH.
    + destruct (leading_ones B) as [|[|[|[|[|k]]]]] eqn:Hl; try done;
        try (by eapply IH).
      destruct (Decode t' None) as [R|] eqn:HR; [|done].
      cbn in Hs. injection Hs as <-.
      rewrite well_formed_cons_low; [by eapply IH|].
      unfold leading_ones in Hl. destruct (N.ltb_spec B 128); [lia|].
      repeat match type of Hl with
             | context [N.ltb ?a ?b] => destruct (N.ltb a b)
             end; done.
  - destruct p; [done|].
    destruct (Decode t None) as [R|] eqn:HR; [|done].
    cbn in Hs. injection Hs as <-.
    cbn [well_formed] in Hwf |- *.
    destruct (is_high_surrogate C) eqn:Hh.
    + destruct t as [|d t']; [done|]. cbn [length] in Hlen.
      apply andb_true_iff in Hwf as [Hd Hwf].
      cbn [Decode] in HR.
      destruct (N.eqb_spec d (ch "%")) as [E|_].
      { unfold is_low_surrogate in Hd. apply andb_true_iff in Hd as [Hd _].
        apply N.leb_le in Hd. change (ch "%") with 37 in E. lia. }
      destruct (Decode t' None) as [R'|] eqn:HR'; [|done].
      cbn in HR. injection HR as <-. rewrite Hd. cbn [andb].
      eapply (IH t'); [lia|done|exact HR'].
    + apply andb_true_iff in Hwf as [Hc Hwf]. rewrite Hc. cbn [andb].
      eapply (IH t); [lia|done|exact HR].
Qed.

End WellFormedFacts.

(** X21: decoding keeps identifiers well-formed: when the encoded
    string is well-formed UTF-16 and [decodeURIComponent] returns, the
    result is well-formed UTF-16; an escape sequence never yields a
    lone surrogate. *)
Theorem decodeURIComponent_well_formed (s r : jsstring) :
  well_formed s = true →
  URI.decodeURIComponent s = Normal r →
  well_formed r = true.
Proof.
  intros Hwf Hs.
  exact (Decode_well_formed_aux (length s) s (le_n _) None r Hwf Hs).
Qed.

Lemma decodeURIComponent_well_formed_witness :
  let s := js "caf%C3%A9%F0%9F%98%80.ipynb" in
  let r := js "caf" ++ [233%N; 55357%N; 56832%N] ++ js ".ipynb" in
  (well_formed s = true ∧ URI.decodeURIComponent s = Normal r) ∧
  well_formed r = true.
Proof.
  intros s r.
  assert (H1 : well_formed s = true) by (vm_compute; reflexivity).
  assert (H2 : URI.decodeURIComponent s = Normal r) by (vm_compute; reflexivity).
  split; [by split|]. exact (decodeURIComponent_well_formed s r H1 H2).
Defined.
